(** * MPC.cpp: the optimisation problem handed to the NLP solver

    A shallow embedding of [src/MPC.cpp]: the layout of the decision vector,
    [polyeval_AD], the cost and constraint evaluation [FG_eval::operator()]
    and the orchestration [MPC::Solve].

    Modelling decisions.
    - [double] and [AD<double>] are the real numbers [R]: arithmetic is exact;
      rounding, overflow, infinities and NaN are outside the model.  The
      statements proved of it name the formulas the code computes and the
      entries it reads and writes.  Where exact arithmetic and the doubles of
      the program part ways, the module [B64] replays the lines in question
      in IEEE binary64.
    - [size_t] and [unsigned int] values are integers [Z]; every [size_t]
      addition, subtraction and multiplication of the source is written with
      its reduction modulo 2^64 ([size_t]).
    - A vector ([CppAD::vector], [Eigen::VectorXd], [std::vector]) is a
      [list R].  An access outside the vector, which the C++ code leaves
      unchecked, is the error [OutOfRange]: a run of the model that returns
      [Ok] performed every access inside its vector.
    - The solver [CppAD::ipopt::solve] is an external collaborator: an
      arbitrary function from its arguments to a [solve_result].
    - [mps_to_mph] is declared in [MPC.h]; it is a parameter of the model. *)

From Stdlib Require Import ZArith List Reals Lra Lia Bool String.
From Stdlib Require Floats Uint63.
From stdpp Require Import base list.
Import ListNotations.

Local Open Scope Z_scope.

(** ** Errors *)

Inductive vec_name : Set :=
| V_fg | V_vars | V_coeffs | V_init_state | V_solution
| V_vars_lowerbound | V_vars_upperbound
| V_constraints_lowerbound | V_constraints_upperbound
| V_solved_x | V_solved_y.

Inductive fault : Set :=
| OutOfRange (v : vec_name) (i : Z).

Inductive result (A : Type) : Type :=
| Ok (a : A)
| Fault (f : fault).
Arguments Ok {A} a.
Arguments Fault {A} f.

Definition bind {A B : Type} (m : result A) (k : A -> result B) : result B :=
  match m with
  | Ok a => k a
  | Fault f => Fault f
  end.

Notation "'let*' x ':=' m 'in' k" := (bind m (fun x => k))
  (at level 10, x name, m at level 100, k at level 200).

(** ** Machine integers *)

(** Arithmetic on [size_t] is modulo 2^64. *)
Definition size_t (z : Z) : Z := z mod 2 ^ 64.

(** ** Vectors *)

Abbreviation vec := (list R).

(** [v[i]] read as a value; 0 outside the vector (used in statements only). *)
Definition ix (v : vec) (i : Z) : R := nth (Z.to_nat i) v 0%R.

(** [v[i]] as the program reads it. *)
Definition vec_get (nm : vec_name) (v : vec) (i : Z) : result R :=
  if (0 <=? i) && (i <? Z.of_nat (length v))
  then Ok (ix v i)
  else Fault (OutOfRange nm i).

(** [v[i] = x] as the program writes it. *)
Definition vec_set (nm : vec_name) (v : vec) (i : Z) (x : R) : result vec :=
  if (0 <=? i) && (i <? Z.of_nat (length v))
  then Ok (<[Z.to_nat i := x]> v)
  else Fault (OutOfRange nm i).

(** ** Loops *)

(** [for (t = lo; t < lo + count; t++) body], the state threaded through the
    bodies; the first fault stops the loop.  The counters of the source are
    [unsigned int] and [int]; every loop of the file ends long before a
    counter could wrap, so [t + 1] is the plain successor. *)
Fixpoint for_count {S : Type} (count : nat) (t : Z)
    (body : Z -> S -> result S) (s : S) : result S :=
  match count with
  | O => Ok s
  | Datatypes.S k => let* s' := body t s in for_count k (t + 1) body s'
  end.

(** [for (t = lo; t < hi; t++) body]. *)
Definition for_range {S : Type} (lo hi : Z)
    (body : Z -> S -> result S) (s : S) : result S :=
  for_count (Z.to_nat (hi - lo)) lo body s.

(** ** Constants (MPC.cpp, lines 9-49) *)

Definition solver_N : Z := 12.

Definition x_start : Z := 0.
Definition y_start : Z := size_t (x_start + solver_N).
Definition psi_start : Z := size_t (y_start + solver_N).
Definition v_start : Z := size_t (psi_start + solver_N).
Definition cte_start : Z := size_t (v_start + solver_N).
Definition epsi_start : Z := size_t (cte_start + solver_N).
Definition delta_start : Z := size_t (epsi_start + solver_N).
Definition a_start : Z := size_t (size_t (delta_start + solver_N) - 1).
Definition n_vars : Z := size_t (size_t (a_start + solver_N) - 1).

Definition n_constraints : Z := delta_start.

Definition solver_dt : R := 0.1.
Definition Lf : R := 2.67.

Definition max_delta : R := 0.436332.
Definition max_acc : R := 1.0.

Definition std_cte : R := 4.0.
Definition std_epsi : R := PI / 5.
Definition std_ddelta_dt : R := max_delta / 4.
Definition std_dacc_dt : R := max_acc / 2.

(** ** polyeval_AD (lines 51-58) *)

(** [int sz = coeffs.size()]: the narrowing to [int] keeps the value for
    every vector of at most [INT_MAX] entries; longer coefficient vectors are
    outside the model.  [CppAD::pow(x, i)] with [i >= 0] is the power [x ^ i],
    with [x ^ 0 = 1]. *)
Definition polyeval_AD (coeffs : vec) (x : R) : result R :=
  let sz := Z.of_nat (length coeffs) in
  for_range 0 sz
    (fun i result =>
       let* c := vec_get V_coeffs coeffs i in
       Ok (result + c * x ^ Z.to_nat i)%R)
    0%R.

(** [fg[i] += x]. *)
Definition fg_add (fg : vec) (i : Z) (x : R) : result vec :=
  let* old := vec_get V_fg fg i in
  vec_set V_fg fg i (old + x)%R.

(** The integer factor [50 * (solver_N - t)] of line 82, computed in
    [size_t] before it meets the [AD<double>] square. *)
Definition cte_weight (t : Z) : Z := size_t (50 * size_t (solver_N - t)).

Section Model.

(** [mps_to_mph] comes from [MPC.h]. *)
Variable mps_to_mph : R.

Definition speed_limit : R := 70 / mps_to_mph.

(** ** FG_eval::operator() (lines 72-147) *)

(** Body of the loop of lines 81-85. *)
Definition cost_state_body (vars : vec) (t : Z) (fg : vec) : result vec :=
  let* cte := vec_get V_vars vars (size_t (cte_start + t)) in
  let* fg := fg_add fg 0 (IZR (cte_weight t) * (cte / std_cte) ^ 2)%R in
  let* epsi := vec_get V_vars vars (size_t (epsi_start + t)) in
  let* fg := fg_add fg 0 (2 * (epsi / std_epsi) ^ 2)%R in
  let* v := vec_get V_vars vars (size_t (v_start + t)) in
  fg_add fg 0 (50 * ((v - speed_limit) / speed_limit) ^ 2)%R.

(** Body of the loop of lines 86-97. *)
Definition cost_actuator_body (vars : vec) (t : Z) (fg : vec) : result vec :=
  let* delta := vec_get V_vars vars (size_t (delta_start + t)) in
  let* fg := fg_add fg 0 (5 * (delta / max_delta) ^ 2)%R in
  let* a := vec_get V_vars vars (size_t (a_start + t)) in
  fg_add fg 0 (1 * (a / max_acc) ^ 2)%R.

(** Body of the loop of lines 98-101. *)
Definition cost_rate_body (vars : vec) (t : Z) (fg : vec) : result vec :=
  let* delta1 := vec_get V_vars vars (size_t (size_t (delta_start + t) + 1)) in
  let* delta0 := vec_get V_vars vars (size_t (delta_start + t)) in
  let* fg := fg_add fg 0 (50 * ((delta1 - delta0) / std_ddelta_dt) ^ 2)%R in
  let* a1 := vec_get V_vars vars (size_t (size_t (a_start + t) + 1)) in
  let* a0 := vec_get V_vars vars (size_t (a_start + t)) in
  fg_add fg 0 (1 * ((a1 - a0) / std_dacc_dt) ^ 2)%R.

(** Lines 75-101: the cost, accumulated in [fg[0]]. *)
Definition FG_cost (vars fg : vec) : result vec :=
  let* fg := vec_set V_fg fg 0 0%R in
  let* fg := for_range 0 solver_N (cost_state_body vars) fg in
  let* fg := for_range 0 (size_t (solver_N - 1)) (cost_actuator_body vars) fg in
  for_range 0 (size_t (solver_N - 2)) (cost_rate_body vars) fg.

(** [fg[1 + start] = vars[start]] (one of lines 109-114). *)
Definition pin_initial (vars : vec) (start : Z) (fg : vec) : result vec :=
  let* x := vec_get V_vars vars start in
  vec_set V_fg fg (size_t (1 + start)) x.

(** Lines 109-114. *)
Definition FG_initial (vars fg : vec) : result vec :=
  let* fg := pin_initial vars x_start fg in
  let* fg := pin_initial vars y_start fg in
  let* fg := pin_initial vars psi_start fg in
  let* fg := pin_initial vars v_start fg in
  let* fg := pin_initial vars cte_start fg in
  pin_initial vars epsi_start fg.

(** Body of the loop of lines 117-146. *)
Definition constraint_body (coeffs vars : vec) (t : Z) (fg : vec)
  : result vec :=
  let* x1 := vec_get V_vars vars (size_t (x_start + t)) in
  let* y1 := vec_get V_vars vars (size_t (y_start + t)) in
  let* psi1 := vec_get V_vars vars (size_t (psi_start + t)) in
  let* v1 := vec_get V_vars vars (size_t (v_start + t)) in
  let* cte1 := vec_get V_vars vars (size_t (cte_start + t)) in
  let* epsi1 := vec_get V_vars vars (size_t (epsi_start + t)) in
  let* x0 := vec_get V_vars vars (size_t (size_t (x_start + t) - 1)) in
  let* y0 := vec_get V_vars vars (size_t (size_t (y_start + t) - 1)) in
  let* psi0 := vec_get V_vars vars (size_t (size_t (psi_start + t) - 1)) in
  let* v0 := vec_get V_vars vars (size_t (size_t (v_start + t) - 1)) in
  let* epsi0 := vec_get V_vars vars (size_t (size_t (epsi_start + t) - 1)) in
  let* delta0 := vec_get V_vars vars (size_t (size_t (delta_start + t) - 1)) in
  let* a0 := vec_get V_vars vars (size_t (size_t (a_start + t) - 1)) in
  let* desired_y0 := polyeval_AD coeffs x0 in
  let* c1 := vec_get V_coeffs coeffs 1 in
  let desired_psi0 := atan c1 in
  let helper_psi_term := (v0 * delta0 / Lf * solver_dt)%R in
  let* fg := vec_set V_fg fg (size_t (size_t (1 + x_start) + t))
               (x1 - (x0 + v0 * cos psi0 * solver_dt))%R in
  let* fg := vec_set V_fg fg (size_t (size_t (1 + y_start) + t))
               (y1 - (y0 + v0 * sin psi0 * solver_dt))%R in
  let* fg := vec_set V_fg fg (size_t (size_t (1 + psi_start) + t))
               (psi1 - (psi0 + helper_psi_term))%R in
  let* fg := vec_set V_fg fg (size_t (size_t (1 + v_start) + t))
               (v1 - (v0 + a0 * solver_dt))%R in
  let* fg := vec_set V_fg fg (size_t (size_t (1 + cte_start) + t))
               (cte1 - ((desired_y0 - y0) + v0 * sin epsi0 * solver_dt))%R in
  vec_set V_fg fg (size_t (size_t (1 + epsi_start) + t))
    (epsi1 - ((psi0 - desired_psi0) + helper_psi_term))%R.

(** Lines 117-146. *)
Definition FG_future (coeffs vars fg : vec) : result vec :=
  for_range 1 solver_N (constraint_body coeffs vars) fg.

(** [FG_eval(coeffs)(fg, vars)]: the contents of [fg] on return. *)
Definition FG_eval (coeffs fg vars : vec) : result vec :=
  let* fg := FG_cost vars fg in
  let* fg := FG_initial vars fg in
  FG_future coeffs vars fg.

End Model.

(** ** MPC::Solve (lines 209-306) *)

(** The solver's [solve_result]; of its fields the code reads [status] and
    [x]. *)
Record solve_result (status_type : Type) : Type := {
  status : status_type;
  x : vec
}.
Arguments status {status_type} _.
Arguments x {status_type} _.

(** The arguments of [CppAD::ipopt::solve]. *)
Record ipopt_problem : Type := {
  options : string;
  xi : vec;
  xl : vec;
  xu : vec;
  gl : vec;
  gu : vec;
  fg_eval : vec -> vec -> result vec
}.

(** What [Solve] does to the outside: the lines written to [std::cerr] and the
    problems handed to the solver, oldest first. *)
Record world : Type := {
  cerr : list string;
  ipopt_calls : list ipopt_problem
}.

Definition print_cerr (line : string) (w : world) : world :=
  {| cerr := cerr w ++ [line]; ipopt_calls := ipopt_calls w |}.

Definition record_call (p : ipopt_problem) (w : world) : world :=
  {| cerr := cerr w; ipopt_calls := ipopt_calls w ++ [p] |}.

Definition nl : string := String (Ascii.ascii_of_nat 10) EmptyString.

Definition solver_options : string :=
  (((EmptyString ++ "Integer print_level  0" ++ nl)
    ++ "Sparse  true        forward" ++ nl)
    ++ "Sparse  true        reverse" ++ nl)
    ++ "Numeric max_cpu_time          0.5" ++ nl.

Definition warning : string := "WARNING: solver was not successful".

(** The value returned by [Solve]: [next_delta], [next_a], [solved_x],
    [solved_y]. *)
Definition solve_output : Type := (R * R * vec * vec)%type.

Section Solve.

Variable mps_to_mph : R.

(** The solver and its status codes. *)
Variable status_type : Type.
Variable success : status_type.
Variable status_eq_dec : forall a b : status_type, {a = b} + {a <> b}.
Variable ipopt_solve : ipopt_problem -> solve_result status_type.

(** [Dvector v(n)] leaves the entries of [v] unspecified: [uninit nm k] is
    what entry [k] of the vector [nm] holds before its first write. *)
Variable uninit : vec_name -> nat -> R.

Definition dvector (nm : vec_name) (n : Z) : vec :=
  map (uninit nm) (seq 0 (Z.to_nat n)).

(** [lo[i] = l; up[i] = u] on a pair of bound vectors. *)
Definition set_bounds (l u : R) (i : Z) (b : vec * vec)
  : result (vec * vec) :=
  let* lo := vec_set V_vars_lowerbound (fst b) i l in
  let* up := vec_set V_vars_upperbound (snd b) i u in
  Ok (lo, up).

(** Lines 220-242. *)
Definition Solve_vars_bounds : result (vec * vec) :=
  let vars_lowerbound := dvector V_vars_lowerbound n_vars in
  let vars_upperbound := dvector V_vars_upperbound n_vars in
  let* b := for_range 0 delta_start (set_bounds (- (1.0e19)) 1.0e19)
              (vars_lowerbound, vars_upperbound) in
  let* b := for_range v_start cte_start
              (set_bounds (- speed_limit mps_to_mph) (speed_limit mps_to_mph))
              b in
  let* b := for_range delta_start a_start
              (set_bounds (- max_delta) max_delta) b in
  for_range a_start n_vars (set_bounds (- max_acc) max_acc) b.

(** [lo[i] = up[i] = c]: the right-hand assignment first. *)
Definition set_constraint (c : R) (i : Z) (b : vec * vec)
  : result (vec * vec) :=
  let* up := vec_set V_constraints_upperbound (snd b) i c in
  let* lo := vec_set V_constraints_lowerbound (fst b) i c in
  Ok (lo, up).

(** [vars[start] = lo[start] = up[start] = init_state[k]] (one of lines
    253-258). *)
Definition set_initial (init_state : vec) (k start : Z)
    (s : vec * (vec * vec)) : result (vec * (vec * vec)) :=
  let* c := vec_get V_init_state init_state k in
  let* b := set_constraint c start (snd s) in
  let* vars := vec_set V_vars (fst s) start c in
  Ok (vars, b).

(** Lines 215-218: the initial guess, all zero. *)
Definition Solve_vars : result vec :=
  let vars := dvector V_vars n_vars in
  for_range 0 n_vars (fun i v => vec_set V_vars v i 0.0%R) vars.

(** Lines 246-250. *)
Definition Solve_constraints_bounds : result (vec * vec) :=
  let constraints_lowerbound := dvector V_constraints_lowerbound
                                  n_constraints in
  let constraints_upperbound := dvector V_constraints_upperbound
                                  n_constraints in
  for_range 0 n_constraints (set_constraint 0.0%R)
    (constraints_lowerbound, constraints_upperbound).

(** Lines 253-258. *)
Definition Solve_initial_state (init_state : vec) (s : vec * (vec * vec))
  : result (vec * (vec * vec)) :=
  let* s := set_initial init_state 0 x_start s in
  let* s := set_initial init_state 1 y_start s in
  let* s := set_initial init_state 2 psi_start s in
  let* s := set_initial init_state 3 v_start s in
  let* s := set_initial init_state 4 cte_start s in
  set_initial init_state 5 epsi_start s.

(** Lines 215-276: everything [Solve] hands to the solver. *)
Definition Solve_problem (init_state coeffs : vec) : result ipopt_problem :=
  let* vars := Solve_vars in
  let* vb := Solve_vars_bounds in
  let* cb := Solve_constraints_bounds in
  let* s := Solve_initial_state init_state (vars, cb) in
  Ok {| options := solver_options;
        xi := fst s;
        xl := fst vb;
        xu := snd vb;
        gl := fst (snd s);
        gu := snd (snd s);
        fg_eval := FG_eval mps_to_mph coeffs |}.

(** Lines 298-303: [solved_x] and [solved_y], value-initialised and then
    filled. *)
Definition Solve_trajectory (sol : vec) : result (vec * vec) :=
  let solved_x := repeat 0%R (Z.to_nat solver_N) in
  let solved_y := repeat 0%R (Z.to_nat solver_N) in
  for_range 0 solver_N
    (fun i s =>
       let* sx := vec_get V_solution sol (size_t (x_start + i)) in
       let* solved_x := vec_set V_solved_x (fst s) i sx in
       let* sy := vec_get V_solution sol (size_t (y_start + i)) in
       let* solved_y := vec_set V_solved_y (snd s) i sy in
       Ok (solved_x, solved_y))
    (solved_x, solved_y).

(** Lines 295-305. *)
Definition Solve_extract (sol : vec) : result solve_output :=
  let* next_delta := vec_get V_solution sol delta_start in
  let* next_a := vec_get V_solution sol a_start in
  let* xy := Solve_trajectory sol in
  Ok (next_delta, next_a, fst xy, snd xy).

(** [MPC::Solve(init_state, coeffs)] run in the world [w]. *)
Definition Solve (init_state coeffs : vec) (w : world)
  : result (solve_output * world) :=
  let* p := Solve_problem init_state coeffs in
  let solution := ipopt_solve p in
  let w := record_call p w in
  let ok := if status_eq_dec (status solution) success then true else false in
  let w := if negb ok then print_cerr warning w else w in
  let* out := Solve_extract (x solution) in
  Ok (out, w).

End Solve.

(** ** Definitions used in the statements *)

(** [v] with entry [i] replaced by [x]. *)
Definition upd (v : vec) (i : Z) (x : R) : vec := <[Z.to_nat i := x]> v.

(** The number of entries of a vector, as an integer. *)
Definition size (v : vec) : Z := Z.of_nat (length v).

(** The sum of [f lo, f (lo + 1), ..., f (lo + n - 1)]. *)
Fixpoint sum_from (n : nat) (lo : Z) (f : Z -> R) : R :=
  match n with
  | O => 0%R
  | Datatypes.S k => (f lo + sum_from k (lo + 1) f)%R
  end.

(** The polynomial of the spec, [sum over i of coeffs[i] * x^i]: the
    coefficient at the head of [cs] belongs to the power [x ^ i]. *)
Fixpoint poly_from (cs : list R) (i : nat) (x : R) : R :=
  match cs with
  | [] => 0%R
  | c :: cs' => (c * x ^ i + poly_from cs' (Datatypes.S i) x)%R
  end.

Definition P (coeffs : vec) (x : R) : R := poly_from coeffs 0 x.

(** The eight segments of the decision vector, in the order of lines 39-47. *)
Inductive segment : Set :=
| Seg_x | Seg_y | Seg_psi | Seg_v | Seg_cte | Seg_epsi | Seg_delta | Seg_a.

Definition seg_start (s : segment) : Z :=
  match s with
  | Seg_x => x_start
  | Seg_y => y_start
  | Seg_psi => psi_start
  | Seg_v => v_start
  | Seg_cte => cte_start
  | Seg_epsi => epsi_start
  | Seg_delta => delta_start
  | Seg_a => a_start
  end.

(** A state segment has one entry per horizon step, an actuator segment one
    per transition. *)
Definition seg_len (s : segment) : Z :=
  match s with
  | Seg_delta | Seg_a => solver_N - 1
  | _ => solver_N
  end.

(** Index [i] of the decision vector lies in segment [s]. *)
Definition in_segment (s : segment) (i : Z) : Prop :=
  seg_start s <= i < seg_start s + seg_len s.

(** Where the segment after [s] starts; after the last one, the end of the
    vector. *)
Definition seg_end (s : segment) : Z :=
  match s with
  | Seg_x => y_start
  | Seg_y => psi_start
  | Seg_psi => v_start
  | Seg_v => cte_start
  | Seg_cte => epsi_start
  | Seg_epsi => delta_start
  | Seg_delta => a_start
  | Seg_a => n_vars
  end.

(** Lines 39-47 with another value [N] for [solver_N]: the starts of the
    eight segments and the size of the vector. *)
Definition layout_for (N : Z) : list Z :=
  let x := 0 in
  let y := size_t (x + N) in
  let psi := size_t (y + N) in
  let v := size_t (psi + N) in
  let cte := size_t (v + N) in
  let epsi := size_t (cte + N) in
  let delta := size_t (epsi + N) in
  let a := size_t (size_t (delta + N) - 1) in
  let n := size_t (size_t (a + N) - 1) in
  [x; y; psi; v; cte; epsi; delta; a; n].

(** *** The cost of the spec (4.3), term by term *)

Section CostTerms.

Variable mps_to_mph : R.
Variable vars : list R.

(** Tracking and speed terms of horizon step [t]. *)
Definition state_term (t : Z) : R :=
  (IZR (cte_weight t) * (ix vars (cte_start + t) / std_cte) ^ 2
   + 2 * (ix vars (epsi_start + t) / std_epsi) ^ 2
   + 50 * ((ix vars (v_start + t) - speed_limit mps_to_mph)
           / speed_limit mps_to_mph) ^ 2)%R.

(** Actuator magnitude terms of transition [t]. *)
Definition actuator_term (t : Z) : R :=
  (5 * (ix vars (delta_start + t) / max_delta) ^ 2
   + 1 * (ix vars (a_start + t) / max_acc) ^ 2)%R.

(** Actuator smoothness terms of the consecutive transitions [t], [t + 1]. *)
Definition rate_term (t : Z) : R :=
  (50 * ((ix vars (delta_start + t + 1) - ix vars (delta_start + t))
         / std_ddelta_dt) ^ 2
   + 1 * ((ix vars (a_start + t + 1) - ix vars (a_start + t))
          / std_dacc_dt) ^ 2)%R.

Definition cost : R :=
  (sum_from (Z.to_nat solver_N) 0 state_term
   + sum_from (Z.to_nat (solver_N - 1)) 0 actuator_term
   + sum_from (Z.to_nat (solver_N - 2)) 0 rate_term)%R.

(** Every numerator of the cost is zero. *)
Definition all_numerators_zero : Prop :=
  (forall t, 0 <= t < solver_N ->
     ix vars (cte_start + t) = 0%R
     /\ ix vars (epsi_start + t) = 0%R
     /\ ix vars (v_start + t) = speed_limit mps_to_mph)
  /\ (forall t, 0 <= t < solver_N - 1 ->
        ix vars (delta_start + t) = 0%R /\ ix vars (a_start + t) = 0%R)
  /\ (forall t, 0 <= t < solver_N - 2 ->
        (ix vars (delta_start + t + 1) - ix vars (delta_start + t) = 0)%R
        /\ (ix vars (a_start + t + 1) - ix vars (a_start + t) = 0)%R).

End CostTerms.

(** *** The kinematic model of the spec (4.2) *)

Record state : Type := {
  st_x : R;
  st_y : R;
  st_psi : R;
  st_v : R;
  st_cte : R;
  st_epsi : R
}.

Record actuation : Type := {
  act_delta : R;
  act_a : R
}.

(** The state and the actuation that a decision vector holds for step [t]. *)
Definition state_at (vars : list R) (t : Z) : state :=
  {| st_x := ix vars (x_start + t);
     st_y := ix vars (y_start + t);
     st_psi := ix vars (psi_start + t);
     st_v := ix vars (v_start + t);
     st_cte := ix vars (cte_start + t);
     st_epsi := ix vars (epsi_start + t) |}.

Definition actuation_at (vars : list R) (t : Z) : actuation :=
  {| act_delta := ix vars (delta_start + t);
     act_a := ix vars (a_start + t) |}.

(** One step of the model: the expressions that lines 140-145 subtract from
    the variables of step [t]. *)
Definition predict (coeffs : list R) (s0 : state) (u0 : actuation) : state :=
  let helper_psi_term :=
    (st_v s0 * act_delta u0 / Lf * solver_dt)%R in
  {| st_x := (st_x s0 + st_v s0 * cos (st_psi s0) * solver_dt)%R;
     st_y := (st_y s0 + st_v s0 * sin (st_psi s0) * solver_dt)%R;
     st_psi := (st_psi s0 + helper_psi_term)%R;
     st_v := (st_v s0 + act_a u0 * solver_dt)%R;
     st_cte := ((P coeffs (st_x s0) - st_y s0)
                + st_v s0 * sin (st_epsi s0) * solver_dt)%R;
     st_epsi := ((st_psi s0 - atan (ix coeffs 1)) + helper_psi_term)%R |}.

(** The six residuals of step [t] stored in [fg] are the variables of step
    [t] minus the prediction from step [t - 1]. *)
Definition residuals_at (coeffs vars fg : list R) (t : Z) : Prop :=
  let s1 := state_at vars t in
  let p := predict coeffs (state_at vars (t - 1)) (actuation_at vars (t - 1)) in
  ix fg (1 + x_start + t) = (st_x s1 - st_x p)%R
  /\ ix fg (1 + y_start + t) = (st_y s1 - st_y p)%R
  /\ ix fg (1 + psi_start + t) = (st_psi s1 - st_psi p)%R
  /\ ix fg (1 + v_start + t) = (st_v s1 - st_v p)%R
  /\ ix fg (1 + cte_start + t) = (st_cte s1 - st_cte p)%R
  /\ ix fg (1 + epsi_start + t) = (st_epsi s1 - st_epsi p)%R.

(** The six residuals of the initial step stored in [fg] are the variables
    themselves. *)
Definition pinned_at_heads (vars fg : list R) : Prop :=
  ix fg (1 + x_start) = ix vars x_start
  /\ ix fg (1 + y_start) = ix vars y_start
  /\ ix fg (1 + psi_start) = ix vars psi_start
  /\ ix fg (1 + v_start) = ix vars v_start
  /\ ix fg (1 + cte_start) = ix vars cte_start
  /\ ix fg (1 + epsi_start) = ix vars epsi_start.

(** Entry [j] of [fg] is none of the residuals of the future steps. *)
Definition not_future_residual (j : Z) : Prop :=
  forall t, 1 <= t < solver_N ->
    j <> 1 + x_start + t /\ j <> 1 + y_start + t
    /\ j <> 1 + psi_start + t /\ j <> 1 + v_start + t
    /\ j <> 1 + cte_start + t /\ j <> 1 + epsi_start + t.

(** *** Concrete inputs *)

(** A value for [mps_to_mph]: the miles per hour in one metre per second. *)
Definition example_mps_to_mph : R := 2.23694.

(** A flat reference path, [y = 0]. *)
Definition example_coeffs : list R := [0; 0; 0]%R.

(** A decision vector and an output vector of the sizes the solver uses. *)
Definition example_vars : list R := repeat 0%R 94.
Definition example_fg : list R := repeat 0%R 73.

(** A vehicle one metre beside the path, at 30 m/s. *)
Definition example_init_state : list R := [0; 1; 0; 30; 1; 0]%R.

(** *** The bounds of the spec (3) *)

(** The magnitude at which the code sets a bound that is no limit (lines
    225-226).  It is the default of the solver's options
    [nlp_lower_bound_inf] and [nlp_upper_bound_inf], which [Solve] leaves
    untouched: Ipopt takes a lower bound at or below -1.0e19, and an upper
    bound at or above 1.0e19, for no bound at all. *)
Definition no_limit : R := 1.0e19.

(** A pair of bounds that the solver takes for no bound on either side. *)
Definition unconstrained (lo up : R) : Prop :=
  (lo <= - no_limit)%R /\ (no_limit <= up)%R.

(** The symmetric limit of each segment of the decision vector. *)
Definition seg_limit (mps_to_mph : R) (s : segment) : R :=
  match s with
  | Seg_v => speed_limit mps_to_mph
  | Seg_delta => max_delta
  | Seg_a => max_acc
  | Seg_x | Seg_y | Seg_psi | Seg_cte | Seg_epsi => no_limit
  end.

(** [i] is the head of the state segment that holds entry [k] of
    [init_state]. *)
Definition head_of (k i : Z) : Prop :=
  (k = 0 /\ i = x_start) \/ (k = 1 /\ i = y_start)
  \/ (k = 2 /\ i = psi_start) \/ (k = 3 /\ i = v_start)
  \/ (k = 4 /\ i = cte_start) \/ (k = 5 /\ i = epsi_start).

Definition is_head (i : Z) : Prop := exists k, head_of k i.

(** Lines 253-258 write the same six values into the three vectors: [w] is
    [v] with the initial state copied to the heads of the state segments. *)
Definition with_initial_state (init_state v : list R) : list R :=
  upd (upd (upd (upd (upd (upd v x_start (ix init_state 0))
                       y_start (ix init_state 1))
                  psi_start (ix init_state 2))
             v_start (ix init_state 3))
        cte_start (ix init_state 4))
    epsi_start (ix init_state 5).

(** The [len] entries of [v] from index [start] on, in order. *)
Definition slice (v : list R) (start len : Z) : list R :=
  firstn (Z.to_nat len) (skipn (Z.to_nat start) v).

(** What [Solve] returns for the solution vector [sol]: the heads of the
    delta and a segments and the whole x and y segments. *)
Definition extraction (sol : list R) : solve_output :=
  (ix sol delta_start, ix sol a_start,
   slice sol x_start solver_N, slice sol y_start solver_N).

(** The line, if any, that a solver status sends to [std::cerr]. *)
Definition warning_for {status_type : Type} (success : status_type)
    (status_eq_dec : forall a b : status_type, {a = b} + {a <> b})
    (st : status_type) : list string :=
  if status_eq_dec st success then [] else [warning].

(** A solver that gives up at once: it reports [false] and returns the
    initial guess. *)
Definition example_solver (p : ipopt_problem) : solve_result bool :=
  {| status := false; x := xi p |}.

Definition example_world : world := {| cerr := []; ipopt_calls := [] |}.

Definition example_uninit (nm : vec_name) (k : nat) : R := INR k.

(** A decision vector that is zero but for [y] at the current step. *)
Definition example_vars_y1 : list R := upd example_vars y_start 1.

(** *** Further definitions for the statements *)

(** [x] with the increment [d] added [k] times, one addition after the
    other. *)
Fixpoint add_n (k : nat) (d x : R) : R :=
  match k with
  | O => x
  | Datatypes.S k' => (add_n k' d x + d)%R
  end.


(** The vector of [n] entries whose entry [i] is [f i]. *)
Definition vec_of (n : nat) (f : Z -> R) : list R :=
  map (fun k => f (Z.of_nat k)) (seq 0 n).

(** The decision vector of a vehicle that starts at [(x0, c0)] with heading
    0 and drives straight on at the constant speed [v], without steering or
    accelerating: step after step [x] is the [x] before plus [v * dt], and
    [y] stays [c0]. *)
Definition straight_vars (x0 c0 v : R) : list R :=
  vec_of 94
    (fun i =>
       if i <? y_start then add_n (Z.to_nat i) (v * solver_dt) x0
       else if i <? psi_start then c0
       else if i <? v_start then 0%R
       else if i <? cte_start then v
       else 0%R).

(** The decision vector of the mirrored manoeuvre: the lateral quantities
    [y], [psi], [cte], [epsi] and the steering [delta] change sign; [x], [v]
    and [a] stay. *)
Definition mirror_vars (vars : list R) : list R :=
  vec_of (length vars)
    (fun i =>
       if ((y_start <=? i) && (i <? v_start))
          || ((cte_start <=? i) && (i <? a_start))
       then (- ix vars i)%R
       else ix vars i).

(** The mirrored reference path. *)
Definition mirror_coeffs (coeffs : list R) : list R := map Ropp coeffs.

Definition mirror_state (s : state) : state :=
  {| st_x := st_x s;
     st_y := (- st_y s)%R;
     st_psi := (- st_psi s)%R;
     st_v := st_v s;
     st_cte := (- st_cte s)%R;
     st_epsi := (- st_epsi s)%R |}.

Definition mirror_actuation (u : actuation) : actuation :=
  {| act_delta := (- act_delta u)%R; act_a := act_a u |}.

(** ** The cost loops and the position update in binary64

    The same lines as above with [double] as the IEEE binary64 numbers of
    [PrimFloat]: [+], [-], [*] and [/] round to nearest.  [CppAD::pow(x, 2)]
    is the rounded square [x * x]; the value that [CppAD::cos] returns is an
    argument of the position update. *)

Module B64.

Import PrimFloat.
#[local] Set Warnings "-inexact-float".
#[local] Open Scope float_scope.

Definition ix (v : list float) (i : Z) : float := nth (Z.to_nat i) v 0.

Definition vec_get (nm : vec_name) (v : list float) (i : Z) : result float :=
  if ((0 <=? i)%Z && (i <? Z.of_nat (length v))%Z)%bool
  then Ok (ix v i)
  else Fault (OutOfRange nm i).

Definition vec_set (nm : vec_name) (v : list float) (i : Z) (x : float)
  : result (list float) :=
  if ((0 <=? i)%Z && (i <? Z.of_nat (length v))%Z)%bool
  then Ok (<[Z.to_nat i := x]> v)
  else Fault (OutOfRange nm i).

(** A [size_t] value converted to [double]; exact below 2^53. *)
Definition of_size_t (z : Z) : float := of_uint63 (Uint63.of_Z z).

Definition pow2 (x : float) : float := x * x.

Definition solver_dt : float := 0.1.
Definition Lf : float := 2.67.
Definition max_delta : float := 0.436332.
Definition max_acc : float := 1.0.
Definition M_PI : float := 3.14159265358979323846.
Definition std_cte : float := 4.0.
Definition std_epsi : float := M_PI / 5.
Definition std_ddelta_dt : float := max_delta / 4.
Definition std_dacc_dt : float := max_acc / 2.
Definition speed_limit (mps_to_mph : float) : float := 70 / mps_to_mph.

Definition fg_add (fg : list float) (i : Z) (x : float)
  : result (list float) :=
  let* old := vec_get V_fg fg i in
  vec_set V_fg fg i (old + x).

(** Body of the loop of lines 81-85. *)
Definition cost_state_body (mps_to_mph : float) (vars : list float) (t : Z)
    (fg : list float) : result (list float) :=
  let* cte := vec_get V_vars vars (size_t (cte_start + t)) in
  let* fg := fg_add fg 0 (of_size_t (cte_weight t) * pow2 (cte / std_cte)) in
  let* epsi := vec_get V_vars vars (size_t (epsi_start + t)) in
  let* fg := fg_add fg 0 (2 * pow2 (epsi / std_epsi)) in
  let* v := vec_get V_vars vars (size_t (v_start + t)) in
  fg_add fg 0
    (50 * pow2 ((v - speed_limit mps_to_mph) / speed_limit mps_to_mph)).

(** Body of the loop of lines 86-97. *)
Definition cost_actuator_body (vars : list float) (t : Z) (fg : list float)
  : result (list float) :=
  let* delta := vec_get V_vars vars (size_t (delta_start + t)) in
  let* fg := fg_add fg 0 (5 * pow2 (delta / max_delta)) in
  let* a := vec_get V_vars vars (size_t (a_start + t)) in
  fg_add fg 0 (1 * pow2 (a / max_acc)).

(** Body of the loop of lines 98-101. *)
Definition cost_rate_body (vars : list float) (t : Z) (fg : list float)
  : result (list float) :=
  let* delta1 := vec_get V_vars vars (size_t (size_t (delta_start + t) + 1)) in
  let* delta0 := vec_get V_vars vars (size_t (delta_start + t)) in
  let* fg := fg_add fg 0 (50 * pow2 ((delta1 - delta0) / std_ddelta_dt)) in
  let* a1 := vec_get V_vars vars (size_t (size_t (a_start + t) + 1)) in
  let* a0 := vec_get V_vars vars (size_t (a_start + t)) in
  fg_add fg 0 (1 * pow2 ((a1 - a0) / std_dacc_dt)).

(** Lines 75-101. *)
Definition FG_cost (mps_to_mph : float) (vars fg : list float)
  : result (list float) :=
  let* fg := vec_set V_fg fg 0 0 in
  let* fg := for_range 0 solver_N (cost_state_body mps_to_mph vars) fg in
  let* fg := for_range 0 (size_t (solver_N - 1)) (cost_actuator_body vars) fg in
  for_range 0 (size_t (solver_N - 2)) (cost_rate_body vars) fg.





End B64.

(** ** Basic facts: integers, vectors, loops *)

#[global] Arguments for_count : simpl never.
#[global] Arguments for_range : simpl never.
#[global] Arguments size_t : simpl never.

Lemma bind_Ok {A B : Type} (a : A) (k : A -> result B) : bind (Ok a) k = k a.
Proof. reflexivity. Qed.

Lemma size_t_small (z : Z) :
  0 <= z < 18446744073709551616 -> size_t z = z.
Proof. intros H. unfold size_t. apply Z.mod_small. exact H. Qed.

Lemma x_start_val : x_start = 0. Proof. reflexivity. Qed.
Lemma y_start_val : y_start = 12. Proof. reflexivity. Qed.
Lemma psi_start_val : psi_start = 24. Proof. reflexivity. Qed.
Lemma v_start_val : v_start = 36. Proof. reflexivity. Qed.
Lemma cte_start_val : cte_start = 48. Proof. reflexivity. Qed.
Lemma epsi_start_val : epsi_start = 60. Proof. reflexivity. Qed.
Lemma delta_start_val : delta_start = 72. Proof. reflexivity. Qed.
Lemma a_start_val : a_start = 83. Proof. reflexivity. Qed.
Lemma n_vars_val : n_vars = 94. Proof. reflexivity. Qed.
Lemma n_constraints_val : n_constraints = 72. Proof. reflexivity. Qed.
Lemma solver_N_val : solver_N = 12. Proof. reflexivity. Qed.

(** Replace the layout constants by their values and drop the reductions
    modulo 2^64 that [lia] shows to be the identity. *)
Ltac layout :=
  rewrite ?x_start_val, ?y_start_val, ?psi_start_val, ?v_start_val,
    ?cte_start_val, ?epsi_start_val, ?delta_start_val, ?a_start_val,
    ?n_vars_val, ?n_constraints_val, ?solver_N_val;
  repeat match goal with
         | |- context [size_t ?z] => rewrite (size_t_small z) by lia
         end.

Lemma vec_get_ok (nm : vec_name) (v : vec) (i : Z) :
  0 <= i < size v -> vec_get nm v i = Ok (ix v i).
Proof.
  unfold vec_get, size. intros [H0 H1].
  apply Z.leb_le in H0. apply Z.ltb_lt in H1.
  rewrite H0, H1. reflexivity.
Qed.

Lemma vec_get_fault (nm : vec_name) (v : vec) (i : Z) :
  size v <= i -> vec_get nm v i = Fault (OutOfRange nm i).
Proof.
  unfold vec_get, size. intros H.
  apply Z.ltb_ge in H. rewrite H, andb_false_r. reflexivity.
Qed.

Lemma vec_set_ok (nm : vec_name) (v : vec) (i : Z) (x : R) :
  0 <= i < size v -> vec_set nm v i x = Ok (upd v i x).
Proof.
  unfold vec_set, size. intros [H0 H1].
  apply Z.leb_le in H0. apply Z.ltb_lt in H1.
  rewrite H0, H1. reflexivity.
Qed.

Lemma size_upd (v : vec) (i : Z) (x : R) : size (upd v i x) = size v.
Proof. unfold size, upd. rewrite length_insert. reflexivity. Qed.

Lemma ix_upd_eq (v : vec) (i : Z) (x : R) :
  0 <= i < size v -> ix (upd v i x) i = x.
Proof.
  unfold ix, upd, size. intros H.
  rewrite nth_lookup, list_lookup_insert_eq by lia. reflexivity.
Qed.

Lemma ix_upd_ne (v : vec) (i j : Z) (x : R) :
  0 <= i -> 0 <= j -> i <> j -> ix (upd v i x) j = ix v j.
Proof.
  unfold ix, upd. intros Hi Hj Hne.
  rewrite !nth_lookup, list_lookup_insert_ne by lia. reflexivity.
Qed.

Lemma upd_upd (v : vec) (i : Z) (x y : R) :
  upd (upd v i x) i y = upd v i y.
Proof. unfold upd. apply list_insert_insert_eq. Qed.

Lemma fg_add_ok (fg : vec) (i : Z) (x : R) :
  0 <= i < size fg -> fg_add fg i x = Ok (upd fg i (ix fg i + x)).
Proof.
  intros H. unfold fg_add. rewrite vec_get_ok by exact H. simpl.
  apply vec_set_ok. exact H.
Qed.

Lemma for_count_S {S : Type} (k : nat) (t : Z)
    (body : Z -> S -> result S) (s : S) :
  for_count (Datatypes.S k) t body s
  = bind (body t s) (for_count k (t + 1) body).
Proof. reflexivity. Qed.

(** The invariant rule for a counted loop. *)
Lemma for_count_inv {S : Type} (I : Z -> S -> Prop)
    (body : Z -> S -> result S) :
  forall (count : nat) (lo : Z) (s : S),
    I lo s ->
    (forall t s0, lo <= t < lo + Z.of_nat count -> I t s0 ->
       exists s1, body t s0 = Ok s1 /\ I (t + 1) s1) ->
    exists s', for_count count lo body s = Ok s' /\ I (lo + Z.of_nat count) s'.
Proof.
  induction count as [|k IH]; intros lo s Hlo Hstep.
  - exists s. split; [reflexivity|]. now replace (lo + Z.of_nat 0) with lo by lia.
  - destruct (Hstep lo s) as (s1 & Hb & Hs1); [lia | exact Hlo |].
    destruct (IH (lo + 1) s1 Hs1) as (s' & Hrun & Hs').
    + intros t s0 Ht. apply Hstep. lia.
    + exists s'. split.
      * rewrite for_count_S, Hb, bind_Ok. exact Hrun.
      * now replace (lo + Z.of_nat (Datatypes.S k)) with (lo + 1 + Z.of_nat k) by lia.
Qed.

Lemma for_range_inv {S : Type} (I : Z -> S -> Prop)
    (body : Z -> S -> result S) (lo hi : Z) (s : S) :
  lo <= hi ->
  I lo s ->
  (forall t s0, lo <= t < hi -> I t s0 ->
     exists s1, body t s0 = Ok s1 /\ I (t + 1) s1) ->
  exists s', for_range lo hi body s = Ok s' /\ I hi s'.
Proof.
  intros Hle Hlo Hstep. unfold for_range.
  destruct (for_count_inv I body (Z.to_nat (hi - lo)) lo s Hlo) as (s' & Hr & Hs').
  - intros t s0 Ht. apply Hstep. lia.
  - exists s'. split; [exact Hr|].
    replace (lo + Z.of_nat (Z.to_nat (hi - lo))) with hi in Hs' by lia.
    exact Hs'.
Qed.

(** ** The cte weight (line 82) *)

Lemma cte_weight_val (t : Z) :
  0 <= t <= solver_N -> cte_weight t = 50 * (solver_N - t).
Proof.
  intros H. unfold cte_weight. rewrite solver_N_val in *.
  rewrite (size_t_small (12 - t)) by lia. apply size_t_small. lia.
Qed.

(** C1, as the spec states it, fails: the weight of the first future step is
    smaller than the weight of the current step. *)
Lemma cte_weight_not_increasing :
  0 <= 0 < 1 /\ 1 < solver_N /\ cte_weight 0 = 600 /\ cte_weight 1 = 550
  /\ ~ (cte_weight 0 <= cte_weight 1).
Proof. vm_compute. intuition discriminate. Qed.

(** C1 (amended): the cte weight of line 82 is [50 * (solver_N - t)]; it is
    positive on the horizon and strictly decreasing in the step index, so the
    steps nearest the present carry the largest weight, as the comment of
    line 82 says. *)
Theorem cte_weight_decreasing (s t : Z) :
  0 <= s -> s < t -> t < solver_N ->
  cte_weight t < cte_weight s
  /\ cte_weight t = 50 * (solver_N - t)
  /\ 0 < cte_weight t
  /\ (IZR (cte_weight t) < IZR (cte_weight s))%R.
Proof.
  intros H0 Hst HtN.
  rewrite (cte_weight_val s), (cte_weight_val t) by lia.
  assert (Hlt : 50 * (solver_N - t) < 50 * (solver_N - s)) by lia.
  repeat split; try lia.
  apply IZR_lt. exact Hlt.
Qed.

Lemma cte_weight_decreasing_witness :
  cte_weight 11 < cte_weight 0
  /\ cte_weight 11 = 50 * (solver_N - 11)
  /\ 0 < cte_weight 11
  /\ (IZR (cte_weight 11) < IZR (cte_weight 0))%R.
Proof.
  apply (cte_weight_decreasing 0 11); [lia | lia | reflexivity].
Defined.

(** ** The layout for every horizon (lines 39-47) *)

Lemma layout_for_solver_N :
  layout_for solver_N
  = [x_start; y_start; psi_start; v_start; cte_start; epsi_start;
     delta_start; a_start; n_vars].
Proof. reflexivity. Qed.

(** Whatever horizon of at least two steps is configured, as long as the
    vector fits [size_t]: six segments of [N] entries, then two of
    [N - 1]. *)
Lemma layout_for_every_horizon (N : Z) :
  2 <= N -> 8 * N - 2 < 18446744073709551616 ->
  layout_for N
  = [0; N; 2 * N; 3 * N; 4 * N; 5 * N; 6 * N; 6 * N + (N - 1);
     6 * N + 2 * (N - 1)].
Proof.
  intros H2 Hfit. unfold layout_for. cbv zeta.
  repeat match goal with
         | |- context [size_t ?z] => rewrite (size_t_small z) by lia
         end.
  repeat (f_equal; try lia).
Qed.

(** ** The cost (lines 75-101) *)

Lemma upd_same (v : list R) (i : Z) :
  0 <= i < size v -> upd v i (ix v i) = v.
Proof.
  unfold upd, ix, size. intros H. apply list_insert_id.
  rewrite nth_lookup.
  destruct (v !! Z.to_nat i) eqn:E; [reflexivity|].
  apply lookup_ge_None in E. lia.
Qed.

(** A loop whose body adds [f t] to entry 0 adds the sum of the [f t]. *)
Lemma for_count_accumulate (f : Z -> R) (body : Z -> list R -> result (list R)) :
  forall (n : nat) (lo : Z),
    (forall t fg, lo <= t < lo + Z.of_nat n -> 0 < size fg ->
       body t fg = Ok (upd fg 0 (ix fg 0 + f t))) ->
    forall fg, 0 < size fg ->
      for_count n lo body fg = Ok (upd fg 0 (ix fg 0 + sum_from n lo f)).
Proof.
  induction n as [|k IH]; intros lo Hbody fg Hfg.
  - simpl sum_from. rewrite Rplus_0_r, upd_same by lia. reflexivity.
  - rewrite for_count_S, Hbody, bind_Ok by lia. simpl sum_from.
    rewrite IH.
    + rewrite upd_upd, ix_upd_eq by lia. apply f_equal, f_equal. ring.
    + intros t fg0 Ht. apply Hbody. lia.
    + rewrite size_upd. exact Hfg.
Qed.

Lemma sum_from_nonneg (f : Z -> R) :
  forall (n : nat) (lo : Z),
    (forall t, lo <= t < lo + Z.of_nat n -> (0 <= f t)%R) ->
    (0 <= sum_from n lo f)%R.
Proof.
  induction n as [|k IH]; intros lo Hf; simpl.
  - lra.
  - assert (0 <= f lo)%R by (apply Hf; lia).
    assert (0 <= sum_from k (lo + 1) f)%R by (apply IH; intros; apply Hf; lia).
    lra.
Qed.

Lemma sum_from_zero_iff (f : Z -> R) :
  forall (n : nat) (lo : Z),
    (forall t, lo <= t < lo + Z.of_nat n -> (0 <= f t)%R) ->
    sum_from n lo f = 0%R <->
    (forall t, lo <= t < lo + Z.of_nat n -> f t = 0%R).
Proof.
  induction n as [|k IH]; intros lo Hf; simpl.
  - split; [intros _ t Ht; lia | reflexivity].
  - assert (H0 : (0 <= f lo)%R) by (apply Hf; lia).
    assert (Hrest : forall t, lo + 1 <= t < lo + 1 + Z.of_nat k -> (0 <= f t)%R)
      by (intros; apply Hf; lia).
    pose proof (sum_from_nonneg f k (lo + 1) Hrest) as H1.
    specialize (IH (lo + 1) Hrest).
    split.
    + intros Hsum t Ht.
      destruct (Z.eq_dec t lo) as [->|Hne]; [lra|].
      apply IH; [lra | lia].
    + intros Hall.
      rewrite (Hall lo) by lia.
      replace (sum_from k (lo + 1) f) with 0%R; [lra|].
      symmetry. apply IH. intros t Ht. apply Hall. lia.
Qed.

Lemma max_delta_pos : (0 < max_delta)%R.
Proof. unfold max_delta. lra. Qed.

Lemma max_acc_pos : (0 < max_acc)%R.
Proof. unfold max_acc. lra. Qed.

Lemma std_cte_pos : (0 < std_cte)%R.
Proof. unfold std_cte. lra. Qed.

Lemma std_epsi_pos : (0 < std_epsi)%R.
Proof. unfold std_epsi. pose proof PI_RGT_0. lra. Qed.

Lemma std_ddelta_dt_pos : (0 < std_ddelta_dt)%R.
Proof. unfold std_ddelta_dt. pose proof max_delta_pos. lra. Qed.

Lemma std_dacc_dt_pos : (0 < std_dacc_dt)%R.
Proof. unfold std_dacc_dt. pose proof max_acc_pos. lra. Qed.

Lemma speed_limit_pos (mps_to_mph : R) :
  (0 < mps_to_mph)%R -> (0 < speed_limit mps_to_mph)%R.
Proof.
  intros H. unfold speed_limit. apply Rdiv_lt_0_compat; [lra | exact H].
Qed.

(** A weighted square of a normalised value: non-negative, and zero exactly
    when the numerator is. *)
Lemma weighted_square_nonneg (w a s : R) :
  (0 < w)%R -> (0 <= w * (a / s) ^ 2)%R.
Proof.
  intros Hw. apply Rmult_le_pos; [lra | apply pow2_ge_0].
Qed.

Lemma weighted_square_zero (w a s : R) :
  (0 < w)%R -> (0 < s)%R -> (w * (a / s) ^ 2 = 0)%R <-> a = 0%R.
Proof.
  intros Hw Hs. split.
  - intros H.
    assert (Hq : ((a / s) ^ 2 = 0)%R).
    { apply Rmult_integral in H. destruct H; [lra | assumption]. }
    assert (Hd : (a / s = 0)%R).
    { destruct (Req_dec (a / s) 0) as [E|E]; [exact E|].
      exfalso. apply (pow_nonzero _ 2) in E. contradiction. }
    unfold Rdiv in Hd. apply Rmult_integral in Hd. destruct Hd as [Ha|Hi].
    + exact Ha.
    + exfalso. apply (Rinv_neq_0_compat s); [lra | exact Hi].
  - intros ->. unfold Rdiv. rewrite Rmult_0_l. simpl. ring.
Qed.

Section CostFacts.

Variable mps_to_mph : R.
Variable vars : list R.
Hypothesis vars_size : size vars = n_vars.

Lemma cost_state_body_ok (t : Z) (fg : list R) :
  0 <= t < solver_N -> 0 < size fg ->
  cost_state_body mps_to_mph vars t fg
  = Ok (upd fg 0 (ix fg 0 + state_term mps_to_mph vars t)).
Proof.
  intros Ht Hfg. unfold cost_state_body, state_term.
  rewrite n_vars_val in vars_size. rewrite solver_N_val in Ht. layout.
  repeat (rewrite vec_get_ok by lia; rewrite ?bind_Ok).
  repeat (rewrite fg_add_ok by (rewrite ?size_upd; lia); rewrite ?bind_Ok;
          rewrite ?upd_upd, ?ix_upd_eq by lia).
  apply f_equal, f_equal. ring.
Qed.

Lemma cost_actuator_body_ok (t : Z) (fg : list R) :
  0 <= t < solver_N - 1 -> 0 < size fg ->
  cost_actuator_body vars t fg
  = Ok (upd fg 0 (ix fg 0 + actuator_term vars t)).
Proof.
  intros Ht Hfg. unfold cost_actuator_body, actuator_term.
  rewrite n_vars_val in vars_size. rewrite solver_N_val in Ht. layout.
  repeat (rewrite vec_get_ok by lia; rewrite ?bind_Ok).
  repeat (rewrite fg_add_ok by (rewrite ?size_upd; lia); rewrite ?bind_Ok;
          rewrite ?upd_upd, ?ix_upd_eq by lia).
  apply f_equal, f_equal. ring.
Qed.

Lemma cost_rate_body_ok (t : Z) (fg : list R) :
  0 <= t < solver_N - 2 -> 0 < size fg ->
  cost_rate_body vars t fg
  = Ok (upd fg 0 (ix fg 0 + rate_term vars t)).
Proof.
  intros Ht Hfg. unfold cost_rate_body, rate_term.
  rewrite n_vars_val in vars_size. rewrite solver_N_val in Ht. layout.
  repeat (rewrite vec_get_ok by lia; rewrite ?bind_Ok).
  repeat (rewrite fg_add_ok by (rewrite ?size_upd; lia); rewrite ?bind_Ok;
          rewrite ?upd_upd, ?ix_upd_eq by lia).
  apply f_equal, f_equal. ring.
Qed.

(** The three loops leave in [fg[0]] the cost of the spec; the other entries
    of [fg] are untouched. *)
Lemma FG_cost_ok (fg : list R) :
  0 < size fg ->
  FG_cost mps_to_mph vars fg = Ok (upd fg 0 (cost mps_to_mph vars)).
Proof.
  intros Hfg. unfold FG_cost, for_range.
  rewrite vec_set_ok by lia. rewrite ?bind_Ok.
  rewrite (for_count_accumulate (state_term mps_to_mph vars)).
  2:{ intros t fg0 Ht. apply cost_state_body_ok. rewrite solver_N_val in *. lia. }
  2:{ rewrite size_upd. exact Hfg. }
  rewrite ?bind_Ok.
  rewrite (for_count_accumulate (actuator_term vars)).
  2:{ intros t fg0 Ht. apply cost_actuator_body_ok.
      rewrite solver_N_val in *. rewrite size_t_small in Ht by lia. lia. }
  2:{ rewrite !size_upd. exact Hfg. }
  rewrite ?bind_Ok.
  rewrite (for_count_accumulate (rate_term vars)).
  2:{ intros t fg0 Ht. apply cost_rate_body_ok.
      rewrite solver_N_val in *. rewrite size_t_small in Ht by lia. lia. }
  2:{ rewrite !size_upd. exact Hfg. }
  rewrite !upd_upd, !ix_upd_eq by (rewrite ?size_upd; lia).
  unfold cost. rewrite solver_N_val.
  rewrite !(size_t_small (12 - _)) by lia.
  rewrite !Z.sub_0_r. apply f_equal, f_equal. ring.
Qed.

Lemma state_term_nonneg (t : Z) :
  0 <= t < solver_N -> (0 <= state_term mps_to_mph vars t)%R.
Proof.
  intros Ht. unfold state_term.
  assert (Hw : (0 < IZR (cte_weight t))%R).
  { apply IZR_lt. rewrite cte_weight_val by lia. lia. }
  pose proof (weighted_square_nonneg _ (ix vars (cte_start + t)) std_cte Hw).
  pose proof (weighted_square_nonneg 2 (ix vars (epsi_start + t)) std_epsi
                ltac:(lra)).
  pose proof (weighted_square_nonneg 50
                (ix vars (v_start + t) - speed_limit mps_to_mph)
                (speed_limit mps_to_mph) ltac:(lra)).
  lra.
Qed.

Lemma actuator_term_nonneg (t : Z) : (0 <= actuator_term vars t)%R.
Proof.
  unfold actuator_term.
  pose proof (weighted_square_nonneg 5 (ix vars (delta_start + t)) max_delta
                ltac:(lra)).
  pose proof (weighted_square_nonneg 1 (ix vars (a_start + t)) max_acc
                ltac:(lra)).
  lra.
Qed.

Lemma rate_term_nonneg (t : Z) : (0 <= rate_term vars t)%R.
Proof.
  unfold rate_term.
  pose proof (weighted_square_nonneg 50
                (ix vars (delta_start + t + 1) - ix vars (delta_start + t))
                std_ddelta_dt ltac:(lra)).
  pose proof (weighted_square_nonneg 1
                (ix vars (a_start + t + 1) - ix vars (a_start + t))
                std_dacc_dt ltac:(lra)).
  lra.
Qed.

Lemma cost_nonneg : (0 <= cost mps_to_mph vars)%R.
Proof.
  unfold cost.
  pose proof (sum_from_nonneg (state_term mps_to_mph vars)
                (Z.to_nat solver_N) 0) as H1.
  pose proof (sum_from_nonneg (actuator_term vars)
                (Z.to_nat (solver_N - 1)) 0) as H2.
  pose proof (sum_from_nonneg (rate_term vars)
                (Z.to_nat (solver_N - 2)) 0) as H3.
  assert (0 <= sum_from (Z.to_nat solver_N) 0 (state_term mps_to_mph vars))%R.
  { apply H1. intros t Ht. apply state_term_nonneg. rewrite solver_N_val in *. lia. }
  assert (0 <= sum_from (Z.to_nat (solver_N - 1)) 0 (actuator_term vars))%R.
  { apply H2. intros. apply actuator_term_nonneg. }
  assert (0 <= sum_from (Z.to_nat (solver_N - 2)) 0 (rate_term vars))%R.
  { apply H3. intros. apply rate_term_nonneg. }
  lra.
Qed.

Hypothesis mps_to_mph_pos : (0 < mps_to_mph)%R.

Lemma state_term_zero (t : Z) :
  0 <= t < solver_N ->
  state_term mps_to_mph vars t = 0%R <->
  ix vars (cte_start + t) = 0%R
  /\ ix vars (epsi_start + t) = 0%R
  /\ ix vars (v_start + t) = speed_limit mps_to_mph.
Proof.
  intros Ht. unfold state_term.
  assert (Hw : (0 < IZR (cte_weight t))%R).
  { apply IZR_lt. rewrite cte_weight_val by lia. lia. }
  pose proof (speed_limit_pos _ mps_to_mph_pos) as Hsl.
  pose proof std_cte_pos as Hc. pose proof std_epsi_pos as He.
  pose proof (weighted_square_nonneg _ (ix vars (cte_start + t)) std_cte Hw)
    as N1.
  pose proof (weighted_square_nonneg 2 (ix vars (epsi_start + t)) std_epsi
                ltac:(lra)) as N2.
  pose proof (weighted_square_nonneg 50
                (ix vars (v_start + t) - speed_limit mps_to_mph)
                (speed_limit mps_to_mph) ltac:(lra)) as N3.
  pose proof (weighted_square_zero _ (ix vars (cte_start + t)) std_cte Hw Hc)
    as Z1.
  pose proof (weighted_square_zero 2 (ix vars (epsi_start + t)) std_epsi
                ltac:(lra) He) as Z2.
  pose proof (weighted_square_zero 50
                (ix vars (v_start + t) - speed_limit mps_to_mph)
                (speed_limit mps_to_mph) ltac:(lra) Hsl) as Z3.
  split.
  - intros H. repeat split.
    + apply Z1. lra.
    + apply Z2. lra.
    + apply Rminus_diag_uniq. apply Z3. lra.
  - intros (H1 & H2 & H3).
    apply Z1 in H1. apply Z2 in H2.
    assert (H3' : (ix vars (v_start + t) - speed_limit mps_to_mph = 0)%R)
      by (rewrite H3; ring).
    apply Z3 in H3'. lra.
Qed.

Lemma actuator_term_zero (t : Z) :
  actuator_term vars t = 0%R <->
  ix vars (delta_start + t) = 0%R /\ ix vars (a_start + t) = 0%R.
Proof.
  unfold actuator_term.
  pose proof max_delta_pos as Hd. pose proof max_acc_pos as Ha.
  pose proof (weighted_square_nonneg 5 (ix vars (delta_start + t)) max_delta
                ltac:(lra)) as N1.
  pose proof (weighted_square_nonneg 1 (ix vars (a_start + t)) max_acc
                ltac:(lra)) as N2.
  pose proof (weighted_square_zero 5 (ix vars (delta_start + t)) max_delta
                ltac:(lra) Hd) as Z1.
  pose proof (weighted_square_zero 1 (ix vars (a_start + t)) max_acc
                ltac:(lra) Ha) as Z2.
  split.
  - intros H. split; [apply Z1 | apply Z2]; lra.
  - intros (H1 & H2). apply Z1 in H1. apply Z2 in H2. lra.
Qed.

Lemma rate_term_zero (t : Z) :
  rate_term vars t = 0%R <->
  (ix vars (delta_start + t + 1) - ix vars (delta_start + t) = 0)%R
  /\ (ix vars (a_start + t + 1) - ix vars (a_start + t) = 0)%R.
Proof.
  unfold rate_term.
  pose proof std_ddelta_dt_pos as Hd. pose proof std_dacc_dt_pos as Ha.
  pose proof (weighted_square_nonneg 50
                (ix vars (delta_start + t + 1) - ix vars (delta_start + t))
                std_ddelta_dt ltac:(lra)) as N1.
  pose proof (weighted_square_nonneg 1
                (ix vars (a_start + t + 1) - ix vars (a_start + t))
                std_dacc_dt ltac:(lra)) as N2.
  pose proof (weighted_square_zero 50
                (ix vars (delta_start + t + 1) - ix vars (delta_start + t))
                std_ddelta_dt ltac:(lra) Hd) as Z1.
  pose proof (weighted_square_zero 1
                (ix vars (a_start + t + 1) - ix vars (a_start + t))
                std_dacc_dt ltac:(lra) Ha) as Z2.
  split.
  - intros H. split; [apply Z1 | apply Z2]; lra.
  - intros (H1 & H2). apply Z1 in H1. apply Z2 in H2. lra.
Qed.

Lemma cost_zero_iff :
  cost mps_to_mph vars = 0%R <-> all_numerators_zero mps_to_mph vars.
Proof.
  unfold cost, all_numerators_zero.
  assert (P1 : forall t, 0 <= t < 0 + Z.of_nat (Z.to_nat solver_N) ->
                 (0 <= state_term mps_to_mph vars t)%R).
  { intros t Ht. apply state_term_nonneg. rewrite solver_N_val in *. lia. }
  assert (P2 : forall t, 0 <= t < 0 + Z.of_nat (Z.to_nat (solver_N - 1)) ->
                 (0 <= actuator_term vars t)%R).
  { intros. apply actuator_term_nonneg. }
  assert (P3 : forall t, 0 <= t < 0 + Z.of_nat (Z.to_nat (solver_N - 2)) ->
                 (0 <= rate_term vars t)%R).
  { intros. apply rate_term_nonneg. }
  pose proof (sum_from_nonneg _ _ _ P1) as N1.
  pose proof (sum_from_nonneg _ _ _ P2) as N2.
  pose proof (sum_from_nonneg _ _ _ P3) as N3.
  pose proof (sum_from_zero_iff _ _ _ P1) as Z1.
  pose proof (sum_from_zero_iff _ _ _ P2) as Z2.
  pose proof (sum_from_zero_iff _ _ _ P3) as Z3.
  rewrite solver_N_val in *.
  split.
  - intros H. repeat split.
    + apply state_term_zero; [rewrite solver_N_val; lia|].
      apply Z1; [lra | lia].
    + apply state_term_zero; [rewrite solver_N_val; lia|].
      apply Z1; [lra | lia].
    + apply state_term_zero; [rewrite solver_N_val; lia|].
      apply Z1; [lra | lia].
    + apply actuator_term_zero. apply Z2; [lra | lia].
    + apply actuator_term_zero. apply Z2; [lra | lia].
    + apply rate_term_zero. apply Z3; [lra | lia].
    + apply rate_term_zero. apply Z3; [lra | lia].
  - intros (H1 & H2 & H3).
    assert (E1 : sum_from (Z.to_nat 12) 0 (state_term mps_to_mph vars) = 0%R).
    { apply Z1. intros t Ht. apply state_term_zero; [rewrite solver_N_val; lia|].
      apply H1. lia. }
    assert (E2 : sum_from (Z.to_nat (12 - 1)) 0 (actuator_term vars) = 0%R).
    { apply Z2. intros t Ht. apply actuator_term_zero. apply H2. lia. }
    assert (E3 : sum_from (Z.to_nat (12 - 2)) 0 (rate_term vars) = 0%R).
    { apply Z3. intros t Ht. apply rate_term_zero. apply H3. lia. }
    lra.
Qed.

End CostFacts.




(** ** polyeval_AD (lines 51-58) *)

Lemma ix_app_middle (pre cs : list R) (c : R) :
  ix (pre ++ c :: cs) (Z.of_nat (length pre)) = c.
Proof.
  unfold ix. rewrite Nat2Z.id. rewrite nth_middle. reflexivity.
Qed.

Lemma polyeval_loop (coeffs : list R) (x : R) :
  forall (cs pre : list R) (acc : R),
    coeffs = pre ++ cs ->
    for_count (length cs) (Z.of_nat (length pre))
      (fun i result =>
         let* c := vec_get V_coeffs coeffs i in
         Ok (result + c * x ^ Z.to_nat i)%R)
      acc
    = Ok (acc + poly_from cs (length pre) x)%R.
Proof.
  induction cs as [|c cs IH]; intros pre acc E.
  - simpl. rewrite Rplus_0_r. reflexivity.
  - simpl length. rewrite for_count_S.
    rewrite vec_get_ok.
    2:{ unfold size. rewrite E, length_app. simpl. lia. }
    rewrite !bind_Ok, Nat2Z.id.
    replace (ix coeffs (Z.of_nat (length pre))) with c
      by (rewrite E; symmetry; apply ix_app_middle).
    replace (Z.of_nat (length pre) + 1) with (Z.of_nat (length (pre ++ [c])))
      by (rewrite length_app; simpl; lia).
    rewrite (IH (pre ++ [c])).
    + simpl poly_from. rewrite length_app. simpl length.
      replace (length pre + 1)%nat with (Datatypes.S (length pre)) by lia.
      apply f_equal. ring.
    + rewrite <- app_assoc. exact E.
Qed.

(** [polyeval_AD] returns for every coefficient vector, with the polynomial
    of the spec. *)
Lemma polyeval_AD_ok (coeffs : list R) (x : R) :
  polyeval_AD coeffs x = Ok (P coeffs x).
Proof.
  unfold polyeval_AD, for_range, P.
  rewrite Z.sub_0_r, Nat2Z.id.
  pose proof (polyeval_loop coeffs x coeffs [] 0%R eq_refl) as H.
  change (Z.of_nat (length (@nil R))) with 0 in H.
  change (length (@nil R)) with 0%nat in H. rewrite H.
  apply f_equal. ring.
Qed.

(** ** The constraints (lines 109-146) *)

(** Read entries of a vector after updates at other, or the same, indices. *)
Ltac ix_simpl :=
  repeat first
    [ rewrite ix_upd_ne by lia
    | rewrite ix_upd_eq by (rewrite ?size_upd; lia) ].

Section ConstraintFacts.

Variable coeffs vars : list R.
Hypothesis vars_size : size vars = n_vars.

Lemma FG_initial_ok (fg : list R) :
  size fg = 1 + n_constraints ->
  exists fg',
    FG_initial vars fg = Ok fg'
    /\ size fg' = size fg
    /\ pinned_at_heads vars fg'
    /\ ix fg' 0 = ix fg 0.
Proof.
  intros Hfg. unfold FG_initial, pin_initial.
  rewrite n_vars_val in vars_size. rewrite n_constraints_val in Hfg.
  layout.
  repeat (rewrite vec_get_ok by lia; rewrite bind_Ok;
          rewrite vec_set_ok by (rewrite ?size_upd; lia); rewrite ?bind_Ok).
  eexists. split; [reflexivity|].
  split; [rewrite !size_upd; reflexivity|].
  unfold pinned_at_heads. layout.
  repeat split; ix_simpl; reflexivity.
Qed.

Hypothesis coeffs_size : 2 <= size coeffs.

Lemma constraint_body_ok (t : Z) (fg : list R) :
  1 <= t < solver_N ->
  size fg = 1 + n_constraints ->
  exists fg',
    constraint_body coeffs vars t fg = Ok fg'
    /\ size fg' = size fg
    /\ residuals_at coeffs vars fg' t
    /\ (forall j, 0 <= j ->
          j <> 1 + x_start + t -> j <> 1 + y_start + t ->
          j <> 1 + psi_start + t -> j <> 1 + v_start + t ->
          j <> 1 + cte_start + t -> j <> 1 + epsi_start + t ->
          ix fg' j = ix fg j).
Proof.
  intros Ht Hfg. unfold constraint_body.
  rewrite n_vars_val in vars_size. rewrite n_constraints_val in Hfg.
  rewrite solver_N_val in Ht.
  layout.
  repeat (rewrite vec_get_ok by lia; rewrite bind_Ok).
  rewrite polyeval_AD_ok, bind_Ok.
  rewrite vec_get_ok by lia. rewrite bind_Ok.
  cbv zeta.
  repeat (rewrite vec_set_ok by (rewrite ?size_upd; lia); rewrite ?bind_Ok).
  eexists. split; [reflexivity|].
  split; [rewrite !size_upd; reflexivity|].
  split.
  - unfold residuals_at, predict, state_at, actuation_at. cbn [st_x st_y st_psi st_v st_cte st_epsi act_delta act_a].
    layout.
    replace (0 + (t - 1)) with (0 + t - 1) by lia.
    replace (12 + (t - 1)) with (12 + t - 1) by lia.
    replace (24 + (t - 1)) with (24 + t - 1) by lia.
    replace (36 + (t - 1)) with (36 + t - 1) by lia.
    replace (60 + (t - 1)) with (60 + t - 1) by lia.
    replace (72 + (t - 1)) with (72 + t - 1) by lia.
    replace (83 + (t - 1)) with (83 + t - 1) by lia.
    repeat split; ix_simpl; reflexivity.
  - intros j Hj H1 H2 H3 H4 H5 H6. revert H1 H2 H3 H4 H5 H6. layout.
    intros. ix_simpl. reflexivity.
Qed.

Lemma residuals_at_frame (fg fg' : list R) (t : Z) :
  ix fg' (1 + x_start + t) = ix fg (1 + x_start + t) ->
  ix fg' (1 + y_start + t) = ix fg (1 + y_start + t) ->
  ix fg' (1 + psi_start + t) = ix fg (1 + psi_start + t) ->
  ix fg' (1 + v_start + t) = ix fg (1 + v_start + t) ->
  ix fg' (1 + cte_start + t) = ix fg (1 + cte_start + t) ->
  ix fg' (1 + epsi_start + t) = ix fg (1 + epsi_start + t) ->
  residuals_at coeffs vars fg t -> residuals_at coeffs vars fg' t.
Proof.
  unfold residuals_at. cbv zeta.
  intros -> -> -> -> -> -> H. exact H.
Qed.

Lemma FG_future_ok (fg : list R) :
  size fg = 1 + n_constraints ->
  exists fg',
    FG_future coeffs vars fg = Ok fg'
    /\ size fg' = size fg
    /\ (forall t, 1 <= t < solver_N -> residuals_at coeffs vars fg' t)
    /\ (forall j, 0 <= j -> not_future_residual j -> ix fg' j = ix fg j).
Proof.
  intros Hfg. unfold FG_future.
  set (I := fun (k : Z) (g : list R) =>
              size g = size fg
              /\ (forall t, 1 <= t < k -> residuals_at coeffs vars g t)
              /\ (forall j, 0 <= j -> not_future_residual j ->
                    ix g j = ix fg j)).
  destruct (for_range_inv I (constraint_body coeffs vars) 1 solver_N fg)
    as (fg' & Hrun & Hsz & Hres & Hframe).
  - rewrite solver_N_val. lia.
  - unfold I. split; [reflexivity|]. split; [intros; lia | reflexivity].
  - intros t g Ht (Hsz & Hres & Hframe).
    destruct (constraint_body_ok t g Ht) as (g' & Hb & Hsz' & Hnew & Hfr).
    { rewrite Hsz. exact Hfg. }
    exists g'. split; [exact Hb|]. unfold I. split; [congruence|]. split.
    + intros t' Ht'.
      destruct (Z.eq_dec t' t) as [->|Hne]; [exact Hnew|].
      apply (residuals_at_frame g); [..| apply Hres; lia];
        apply Hfr; revert Ht Ht'; layout; lia.
    + intros j Hj Hnf. rewrite <- (Hframe j Hj Hnf).
      destruct (Hnf t Ht) as (N1 & N2 & N3 & N4 & N5 & N6).
      exact (Hfr j Hj N1 N2 N3 N4 N5 N6).
  - exists fg'. split; [exact Hrun|]. split; [exact Hsz|].
    split; [exact Hres | exact Hframe].
Qed.

(** The whole of [FG_eval]: it returns, [fg] keeps its size, entry 0 is the
    cost, the entries after the segment heads are the pinned variables and
    the other entries are the residuals of the model. *)
Lemma FG_eval_ok (mps_to_mph : R) (fg : list R) :
  size fg = 1 + n_constraints ->
  exists fg',
    FG_eval mps_to_mph coeffs fg vars = Ok fg'
    /\ size fg' = size fg
    /\ ix fg' 0 = cost mps_to_mph vars
    /\ pinned_at_heads vars fg'
    /\ (forall t, 1 <= t < solver_N -> residuals_at coeffs vars fg' t).
Proof.
  intros Hfg. unfold FG_eval.
  assert (Hpos : 0 < size fg) by (rewrite Hfg, n_constraints_val; lia).
  rewrite (FG_cost_ok mps_to_mph vars vars_size fg Hpos), bind_Ok.
  destruct (FG_initial_ok (upd fg 0 (cost mps_to_mph vars)))
    as (fg1 & H1 & Hsz1 & Hpin & Hc1).
  { rewrite size_upd. exact Hfg. }
  rewrite H1, bind_Ok.
  destruct (FG_future_ok fg1) as (fg2 & H2 & Hsz2 & Hres & Hframe).
  { rewrite Hsz1, size_upd. exact Hfg. }
  exists fg2. split; [exact H2|].
  assert (Hnf : forall j, 0 <= j -> (j = 0 \/ j = 1 + x_start \/ j = 1 + y_start
                 \/ j = 1 + psi_start \/ j = 1 + v_start \/ j = 1 + cte_start
                 \/ j = 1 + epsi_start) -> not_future_residual j).
  { intros j Hj Hcase t Ht. revert Hcase Ht. layout. lia. }
  split; [rewrite Hsz2, Hsz1, size_upd; reflexivity|].
  split.
  - rewrite Hframe; [| lia | apply Hnf; [lia | tauto]].
    rewrite Hc1. apply ix_upd_eq. lia.
  - split; [|exact Hres].
    destruct Hpin as (P1 & P2 & P3 & P4 & P5 & P6).
    unfold pinned_at_heads.
    repeat split; (rewrite Hframe; [assumption | layout; lia | apply Hnf; [layout; lia | tauto]]).
Qed.

End ConstraintFacts.

(** ** The residuals of the model (lines 117-146) *)

(** The polynomial of the spec as a sum over the indices of [coeffs]. *)
Lemma poly_from_sum (x : R) :
  forall (cs pre : list R),
    poly_from cs (length pre) x
    = sum_from (length cs) (Z.of_nat (length pre))
        (fun i => ix (pre ++ cs) i * x ^ Z.to_nat i)%R.
Proof.
  induction cs as [|c cs IH]; intros pre.
  - reflexivity.
  - simpl poly_from. simpl length. simpl sum_from.
    rewrite ix_app_middle, Nat2Z.id.
    replace (Datatypes.S (length pre)) with (length (pre ++ [c]))
      by (rewrite length_app; simpl; lia).
    rewrite (IH (pre ++ [c])).
    rewrite <- app_assoc. simpl app.
    replace (Z.of_nat (length (pre ++ [c]))) with (Z.of_nat (length pre) + 1)
      by (rewrite length_app; simpl; lia).
    reflexivity.
Qed.

Lemma P_sum (coeffs : list R) (x : R) :
  P coeffs x
  = sum_from (length coeffs) 0 (fun i => ix coeffs i * x ^ Z.to_nat i)%R.
Proof. unfold P. apply (poly_from_sum x coeffs []). Qed.

(** C2: with at least two coefficients, [FG_eval] returns, and for every
    future step [t] each of the six residuals it stores is the variable of
    step [t] minus the bicycle-model prediction from step [t - 1]; the psi
    and the epsi residual share the heading term [v0 * delta0 / Lf * dt];
    [P] is the sum of [coeffs[i] * x ^ i] over the indices of [coeffs]. *)
Theorem residuals_are_model_defects
    (mps_to_mph : R) (coeffs fg vars : list R) :
  2 <= size coeffs ->
  size vars = n_vars ->
  size fg = 1 + n_constraints ->
  exists fg',
    FG_eval mps_to_mph coeffs fg vars = Ok fg'
    /\ forall t, 1 <= t < solver_N ->
         let x1 := ix vars (x_start + t) in
         let y1 := ix vars (y_start + t) in
         let psi1 := ix vars (psi_start + t) in
         let v1 := ix vars (v_start + t) in
         let cte1 := ix vars (cte_start + t) in
         let epsi1 := ix vars (epsi_start + t) in
         let x0 := ix vars (x_start + (t - 1)) in
         let y0 := ix vars (y_start + (t - 1)) in
         let psi0 := ix vars (psi_start + (t - 1)) in
         let v0 := ix vars (v_start + (t - 1)) in
         let epsi0 := ix vars (epsi_start + (t - 1)) in
         let delta0 := ix vars (delta_start + (t - 1)) in
         let a0 := ix vars (a_start + (t - 1)) in
         let heading := (v0 * delta0 / Lf * solver_dt)%R in
         ix fg' (1 + x_start + t)
         = (x1 - (x0 + v0 * cos psi0 * solver_dt))%R
         /\ ix fg' (1 + y_start + t)
            = (y1 - (y0 + v0 * sin psi0 * solver_dt))%R
         /\ ix fg' (1 + psi_start + t) = (psi1 - (psi0 + heading))%R
         /\ ix fg' (1 + v_start + t) = (v1 - (v0 + a0 * solver_dt))%R
         /\ ix fg' (1 + cte_start + t)
            = (cte1 - ((P coeffs x0 - y0) + v0 * sin epsi0 * solver_dt))%R
         /\ ix fg' (1 + epsi_start + t)
            = (epsi1 - ((psi0 - atan (ix coeffs 1)) + heading))%R
         /\ P coeffs x0
            = sum_from (length coeffs) 0
                (fun i => ix coeffs i * x0 ^ Z.to_nat i)%R.
Proof.
  intros Hc Hv Hfg.
  destruct (FG_eval_ok coeffs vars Hv Hc mps_to_mph fg Hfg)
    as (fg' & Hrun & _ & _ & _ & Hres).
  exists fg'. split; [exact Hrun|].
  intros t Ht. cbv zeta.
  destruct (Hres t Ht) as (R1 & R2 & R3 & R4 & R5 & R6).
  repeat split; try assumption.
  apply P_sum.
Qed.

Lemma residuals_are_model_defects_witness :
  exists fg',
    FG_eval example_mps_to_mph example_coeffs example_fg example_vars = Ok fg'
    /\ ix fg' (1 + x_start + 1)
       = (ix example_vars (x_start + 1)
          - (ix example_vars (x_start + (1 - 1))
             + ix example_vars (v_start + (1 - 1))
               * cos (ix example_vars (psi_start + (1 - 1))) * solver_dt))%R.
Proof.
  destruct (residuals_are_model_defects example_mps_to_mph example_coeffs
              example_fg example_vars) as (fg' & Hrun & Hres).
  - unfold size. simpl. lia.
  - reflexivity.
  - reflexivity.
  - exists fg'. split; [exact Hrun|].
    apply (Hres 1). rewrite solver_N_val. lia.
Defined.

(** ** The precondition on the coefficient vector (lines 135-136) *)

Lemma constraint_body_short_coeffs (coeffs vars fg : list R) :
  size vars = n_vars ->
  size coeffs < 2 ->
  constraint_body coeffs vars 1 fg = Fault (OutOfRange V_coeffs 1).
Proof.
  intros Hv Hc. unfold constraint_body.
  rewrite n_vars_val in Hv. layout.
  repeat (rewrite vec_get_ok by lia; rewrite bind_Ok).
  rewrite polyeval_AD_ok, bind_Ok.
  rewrite vec_get_fault by lia. reflexivity.
Qed.

(** C10: [polyeval_AD] returns for every coefficient vector, the empty one
    included, with the sum of [coeffs[i] * x ^ i] over the indices of the
    vector.  [FG_eval], run on vectors of the sizes the solver uses, reads
    [coeffs[1]] in the first future step: with fewer than two coefficients
    that read is outside the vector, and with at least two every access of
    the evaluation is inside its vector, so that it returns. *)
Theorem coeffs_need_two_entries
    (mps_to_mph : R) (coeffs fg vars : list R) (x : R) :
  size vars = n_vars ->
  size fg = 1 + n_constraints ->
  polyeval_AD coeffs x
  = Ok (sum_from (length coeffs) 0 (fun i => ix coeffs i * x ^ Z.to_nat i)%R)
  /\ polyeval_AD [] x = Ok 0%R
  /\ (size coeffs < 2 ->
      FG_eval mps_to_mph coeffs fg vars = Fault (OutOfRange V_coeffs 1))
  /\ (2 <= size coeffs ->
      exists fg',
        FG_eval mps_to_mph coeffs fg vars = Ok fg' /\ size fg' = size fg).
Proof.
  intros Hv Hfg.
  split; [rewrite polyeval_AD_ok, P_sum; reflexivity|].
  split; [rewrite polyeval_AD_ok; reflexivity|].
  split.
  - intros Hc. unfold FG_eval.
    assert (Hpos : 0 < size fg) by (rewrite Hfg, n_constraints_val; lia).
    rewrite (FG_cost_ok mps_to_mph vars Hv fg Hpos), bind_Ok.
    destruct (FG_initial_ok vars Hv (upd fg 0 (cost mps_to_mph vars)))
      as (fg1 & H1 & _).
    { rewrite size_upd. exact Hfg. }
    rewrite H1, bind_Ok.
    unfold FG_future, for_range.
    change (Z.to_nat (solver_N - 1)) with 11%nat.
    rewrite for_count_S, (constraint_body_short_coeffs _ _ _ Hv Hc).
    reflexivity.
  - intros Hc.
    destruct (FG_eval_ok coeffs vars Hv Hc mps_to_mph fg Hfg)
      as (fg' & Hrun & Hsz & _).
    exists fg'. split; assumption.
Qed.

Lemma coeffs_need_two_entries_witness :
  polyeval_AD example_coeffs 2
  = Ok (sum_from (length example_coeffs) 0
          (fun i => ix example_coeffs i * 2 ^ Z.to_nat i)%R)
  /\ polyeval_AD [] 2 = Ok 0%R
  /\ (size example_coeffs < 2 ->
      FG_eval example_mps_to_mph example_coeffs example_fg example_vars
      = Fault (OutOfRange V_coeffs 1))
  /\ (2 <= size example_coeffs ->
      exists fg',
        FG_eval example_mps_to_mph example_coeffs example_fg example_vars
        = Ok fg'
        /\ size fg' = size example_fg).
Proof.
  apply (coeffs_need_two_entries example_mps_to_mph example_coeffs
           example_fg example_vars 2); reflexivity.
Defined.


(** ** Coasting (lines 138-143) *)




(** ** The vectors built by Solve (lines 215-258) *)

Lemma size_dvector (uninit : vec_name -> nat -> R) (nm : vec_name) (n : Z) :
  0 <= n -> size (dvector uninit nm n) = n.
Proof.
  intros Hn. unfold size, dvector. rewrite length_map, length_seq. lia.
Qed.

Lemma set_bounds_ok (l u : R) (i : Z) (lo up : list R) :
  0 <= i < size lo -> 0 <= i < size up ->
  set_bounds l u i (lo, up) = Ok (upd lo i l, upd up i u).
Proof.
  intros Hlo Hup. unfold set_bounds. cbn [fst snd].
  rewrite !vec_set_ok by assumption. reflexivity.
Qed.

Lemma set_constraint_ok (c : R) (i : Z) (lo up : list R) :
  0 <= i < size lo -> 0 <= i < size up ->
  set_constraint c i (lo, up) = Ok (upd lo i c, upd up i c).
Proof.
  intros Hlo Hup. unfold set_constraint. cbn [fst snd].
  rewrite !vec_set_ok by assumption. reflexivity.
Qed.

(** A loop that writes [l] and [u] at every index of [a..b-1] of a pair of
    vectors. *)
Lemma fill_pair_range (body : Z -> list R * list R -> result (list R * list R))
    (l u : R) (a b : Z) (lo0 up0 : list R) :
  (forall i lo up, 0 <= i < size lo -> 0 <= i < size up ->
     body i (lo, up) = Ok (upd lo i l, upd up i u)) ->
  0 <= a <= b -> b <= size lo0 -> b <= size up0 ->
  exists lo up,
    for_range a b body (lo0, up0) = Ok (lo, up)
    /\ size lo = size lo0 /\ size up = size up0
    /\ (forall j, a <= j < b -> ix lo j = l /\ ix up j = u)
    /\ (forall j, 0 <= j -> ~ (a <= j < b) ->
          ix lo j = ix lo0 j /\ ix up j = ix up0 j).
Proof.
  intros Hbody Hab Hlo Hup.
  set (I := fun (k : Z) (s : list R * list R) =>
              size (fst s) = size lo0 /\ size (snd s) = size up0
              /\ (forall j, a <= j < k -> ix (fst s) j = l /\ ix (snd s) j = u)
              /\ (forall j, 0 <= j -> ~ (a <= j < k) ->
                    ix (fst s) j = ix lo0 j /\ ix (snd s) j = ix up0 j)).
  destruct (for_range_inv I body a b (lo0, up0)) as ([lo up] & Hrun & HI).
  - lia.
  - unfold I. cbn [fst snd]. repeat split; try reflexivity; intros; lia.
  - intros t [lo up] Ht (S1 & S2 & Hin & Hout). cbn [fst snd] in *.
    exists (upd lo t l, upd up t u). split.
    + apply Hbody; lia.
    + unfold I. cbn [fst snd]. rewrite !size_upd.
      split; [exact S1|]. split; [exact S2|]. split.
      * intros j Hj. destruct (Z.eq_dec j t) as [->|Hne].
        -- rewrite !ix_upd_eq by lia. split; reflexivity.
        -- rewrite !ix_upd_ne by lia. apply Hin. lia.
      * intros j Hj Hnot. rewrite !ix_upd_ne by lia. apply Hout; lia.
  - destruct HI as (S1 & S2 & Hin & Hout). cbn [fst snd] in *.
    exists lo, up. repeat split; try assumption; try (apply Hin; assumption);
      apply Hout; assumption.
Qed.

(** A loop that writes [c] at every index of [a..b-1] of a vector. *)
Lemma fill_range (body : Z -> list R -> result (list R)) (c : R)
    (a b : Z) (v0 : list R) :
  (forall i v, 0 <= i < size v -> body i v = Ok (upd v i c)) ->
  0 <= a <= b -> b <= size v0 ->
  exists v,
    for_range a b body v0 = Ok v
    /\ size v = size v0
    /\ (forall j, a <= j < b -> ix v j = c)
    /\ (forall j, 0 <= j -> ~ (a <= j < b) -> ix v j = ix v0 j).
Proof.
  intros Hbody Hab Hb.
  set (I := fun (k : Z) (v : list R) =>
              size v = size v0
              /\ (forall j, a <= j < k -> ix v j = c)
              /\ (forall j, 0 <= j -> ~ (a <= j < k) -> ix v j = ix v0 j)).
  destruct (for_range_inv I body a b v0) as (v & Hrun & S1 & Hin & Hout).
  - lia.
  - unfold I. repeat split; try reflexivity; intros; lia.
  - intros t v Ht (S1 & Hin & Hout).
    exists (upd v t c). split.
    + apply Hbody; lia.
    + unfold I. rewrite size_upd. split; [exact S1|]. split.
      * intros j Hj. destruct (Z.eq_dec j t) as [->|Hne].
        -- rewrite ix_upd_eq by lia. reflexivity.
        -- rewrite ix_upd_ne by lia. apply Hin. lia.
      * intros j Hj Hnot. rewrite ix_upd_ne by lia. apply Hout; lia.
  - exists v. split; [exact Hrun|]. split; [exact S1|].
    split; [exact Hin | exact Hout].
Qed.

Lemma zero_literal : 0.0%R = 0%R.
Proof. lra. Qed.

(** One stage of bound setting, read at an index: inside the stage's range
    the new bounds, outside it the old ones. *)
Ltac stage_out H j :=
  let E1 := fresh "E" in
  let E2 := fresh "E" in
  destruct (H j) as [E1 E2]; [lia | lia |]; rewrite E1, E2; clear E1 E2.

Ltac stage_in H j :=
  let E1 := fresh "E" in
  let E2 := fresh "E" in
  destruct (H j) as [E1 E2]; [lia |]; rewrite E1, E2; clear E1 E2.

Section SolveFacts.

Variable mps_to_mph : R.
Variable uninit : vec_name -> nat -> R.

(** Lines 220-242: the bounds of every segment of the decision vector. *)
Lemma Solve_vars_bounds_ok :
  exists lo up,
    Solve_vars_bounds mps_to_mph uninit = Ok (lo, up)
    /\ size lo = n_vars /\ size up = n_vars
    /\ forall s i, in_segment s i ->
         ix lo i = (- seg_limit mps_to_mph s)%R
         /\ ix up i = seg_limit mps_to_mph s.
Proof.
  unfold Solve_vars_bounds. cbv zeta.
  pose proof (size_dvector uninit V_vars_lowerbound n_vars) as Sl.
  pose proof (size_dvector uninit V_vars_upperbound n_vars) as Su.
  rewrite n_vars_val in *.
  specialize (Sl ltac:(lia)). specialize (Su ltac:(lia)).
  layout.
  destruct (fill_pair_range (set_bounds (- (1.0e19)) 1.0e19) (- (1.0e19))%R 1.0e19%R
              0 72 (dvector uninit V_vars_lowerbound 94)
              (dvector uninit V_vars_upperbound 94))
    as (lo1 & up1 & R1 & Sl1 & Su1 & In1 & Out1);
    [intros; apply set_bounds_ok; assumption | lia | lia | lia |].
  rewrite R1, bind_Ok.
  destruct (fill_pair_range
              (set_bounds (- speed_limit mps_to_mph) (speed_limit mps_to_mph))
              (- speed_limit mps_to_mph) (speed_limit mps_to_mph)
              36 48 lo1 up1)
    as (lo2 & up2 & R2 & Sl2 & Su2 & In2 & Out2);
    [intros; apply set_bounds_ok; assumption | lia | lia | lia |].
  rewrite R2, bind_Ok.
  destruct (fill_pair_range (set_bounds (- max_delta) max_delta)
              (- max_delta) max_delta 72 83 lo2 up2)
    as (lo3 & up3 & R3 & Sl3 & Su3 & In3 & Out3);
    [intros; apply set_bounds_ok; assumption | lia | lia | lia |].
  rewrite R3, bind_Ok.
  destruct (fill_pair_range (set_bounds (- max_acc) max_acc)
              (- max_acc) max_acc 83 94 lo3 up3)
    as (lo4 & up4 & R4 & Sl4 & Su4 & In4 & Out4);
    [intros; apply set_bounds_ok; assumption | lia | lia | lia |].
  exists lo4, up4. split; [exact R4|].
  split; [lia|]. split; [lia|].
  intros s i Hi. unfold in_segment in Hi.
  destruct s; cbn [seg_start seg_len seg_limit] in *; unfold no_limit;
    revert Hi; layout; intros Hi.
  - stage_out Out4 i. stage_out Out3 i. stage_out Out2 i. stage_in In1 i.
    split; reflexivity.
  - stage_out Out4 i. stage_out Out3 i. stage_out Out2 i. stage_in In1 i.
    split; reflexivity.
  - stage_out Out4 i. stage_out Out3 i. stage_out Out2 i. stage_in In1 i.
    split; reflexivity.
  - stage_out Out4 i. stage_out Out3 i. stage_in In2 i.
    split; reflexivity.
  - stage_out Out4 i. stage_out Out3 i. stage_out Out2 i. stage_in In1 i.
    split; reflexivity.
  - stage_out Out4 i. stage_out Out3 i. stage_out Out2 i. stage_in In1 i.
    split; reflexivity.
  - stage_out Out4 i. stage_in In3 i. split; reflexivity.
  - stage_in In4 i. split; reflexivity.
Qed.

(** Lines 215-218: the initial guess before the initial state is copied. *)
Lemma Solve_vars_ok :
  exists vars,
    Solve_vars uninit = Ok vars
    /\ size vars = n_vars
    /\ forall j, 0 <= j < n_vars -> ix vars j = 0%R.
Proof.
  unfold Solve_vars. cbv zeta.
  pose proof (size_dvector uninit V_vars n_vars) as Sv.
  rewrite n_vars_val in *. specialize (Sv ltac:(lia)).
  destruct (fill_range (fun i v => vec_set V_vars v i 0.0%R) 0.0%R 0 94
              (dvector uninit V_vars 94))
    as (v & Hrun & Sz & Hin & _);
    [intros; apply vec_set_ok; assumption | lia | lia |].
  exists v. split; [exact Hrun|]. split; [lia|].
  intros j Hj. rewrite Hin by lia. apply zero_literal.
Qed.

(** Lines 246-250: the constraint bounds before the initial state is
    copied. *)
Lemma Solve_constraints_bounds_ok :
  exists lo up,
    Solve_constraints_bounds uninit = Ok (lo, up)
    /\ size lo = n_constraints /\ size up = n_constraints
    /\ forall j, 0 <= j < n_constraints -> ix lo j = 0%R /\ ix up j = 0%R.
Proof.
  unfold Solve_constraints_bounds. cbv zeta.
  pose proof (size_dvector uninit V_constraints_lowerbound n_constraints) as Sl.
  pose proof (size_dvector uninit V_constraints_upperbound n_constraints) as Su.
  rewrite n_constraints_val in *.
  specialize (Sl ltac:(lia)). specialize (Su ltac:(lia)).
  destruct (fill_pair_range (set_constraint 0.0%R) 0.0%R 0.0%R 0 72
              (dvector uninit V_constraints_lowerbound 72)
              (dvector uninit V_constraints_upperbound 72))
    as (lo & up & Hrun & Sl1 & Su1 & Hin & _);
    [intros; apply set_constraint_ok; assumption | lia | lia | lia |].
  exists lo, up. split; [exact Hrun|]. split; [lia|]. split; [lia|].
  intros j Hj. destruct (Hin j Hj) as [-> ->].
  split; apply zero_literal.
Qed.

End SolveFacts.

Lemma set_initial_ok (init_state : list R) (k start : Z)
    (vars lo up : list R) :
  0 <= k < size init_state ->
  0 <= start < size vars -> 0 <= start < size lo -> 0 <= start < size up ->
  set_initial init_state k start (vars, (lo, up))
  = Ok (upd vars start (ix init_state k),
        (upd lo start (ix init_state k), upd up start (ix init_state k))).
Proof.
  intros Hk Hv Hlo Hup. unfold set_initial. cbn [fst snd].
  rewrite vec_get_ok, bind_Ok by assumption.
  rewrite set_constraint_ok, bind_Ok by assumption.
  rewrite vec_set_ok, bind_Ok by assumption.
  reflexivity.
Qed.

Lemma size_with_initial_state (init_state v : list R) :
  size (with_initial_state init_state v) = size v.
Proof. unfold with_initial_state. rewrite !size_upd. reflexivity. Qed.

Lemma with_initial_state_head (init_state v : list R) (k i : Z) :
  epsi_start < size v ->
  head_of k i ->
  ix (with_initial_state init_state v) i = ix init_state k.
Proof.
  intros Hv Hh. unfold with_initial_state. revert Hv. layout. intros Hv.
  unfold head_of in Hh. revert Hh. layout. intros Hh.
  destruct Hh as [[-> ->]|[[-> ->]|[[-> ->]|[[-> ->]|[[-> ->]|[-> ->]]]]]];
    ix_simpl; reflexivity.
Qed.

Lemma with_initial_state_other (init_state v : list R) (i : Z) :
  0 <= i -> ~ is_head i ->
  ix (with_initial_state init_state v) i = ix v i.
Proof.
  intros Hi Hn. unfold with_initial_state.
  assert (H : i <> x_start /\ i <> y_start /\ i <> psi_start
              /\ i <> v_start /\ i <> cte_start /\ i <> epsi_start).
  { repeat split; intros ->; apply Hn; unfold is_head, head_of.
    - exists 0. tauto.
    - exists 1. tauto.
    - exists 2. tauto.
    - exists 3. tauto.
    - exists 4. tauto.
    - exists 5. tauto. }
  revert H. layout. intros H. ix_simpl. reflexivity.
Qed.

Lemma Solve_initial_state_ok (init_state vars lo up : list R) :
  6 <= size init_state ->
  size vars = n_vars -> size lo = n_constraints -> size up = n_constraints ->
  Solve_initial_state init_state (vars, (lo, up))
  = Ok (with_initial_state init_state vars,
        (with_initial_state init_state lo, with_initial_state init_state up)).
Proof.
  intros Hi Hv Hlo Hup. unfold Solve_initial_state, with_initial_state.
  rewrite n_vars_val in Hv. rewrite n_constraints_val in Hlo, Hup.
  layout.
  repeat (rewrite set_initial_ok by (rewrite ?size_upd; lia);
          rewrite ?bind_Ok).
  reflexivity.
Qed.

Section ProblemFacts.

Variable mps_to_mph : R.
Variable uninit : vec_name -> nat -> R.
Variable init_state coeffs : list R.
Hypothesis init_state_size : 6 <= size init_state.

(** Lines 215-276: what [Solve] hands to the solver. *)
Lemma Solve_problem_ok :
  exists p lo up vars0 lo0 up0,
    Solve_problem mps_to_mph uninit init_state coeffs = Ok p
    /\ Solve_vars_bounds mps_to_mph uninit = Ok (lo, up)
    /\ Solve_vars uninit = Ok vars0
    /\ Solve_constraints_bounds uninit = Ok (lo0, up0)
    /\ p = {| options := solver_options;
              xi := with_initial_state init_state vars0;
              xl := lo;
              xu := up;
              gl := with_initial_state init_state lo0;
              gu := with_initial_state init_state up0;
              fg_eval := FG_eval mps_to_mph coeffs |}.
Proof.
  destruct (Solve_vars_bounds_ok mps_to_mph uninit)
    as (lo & up & Hb & _).
  destruct (Solve_vars_ok uninit) as (vars0 & Hv & Sv & _).
  destruct (Solve_constraints_bounds_ok uninit)
    as (lo0 & up0 & Hc & Sl0 & Su0 & _).
  exists
    {| options := solver_options;
       xi := with_initial_state init_state vars0;
       xl := lo;
       xu := up;
       gl := with_initial_state init_state lo0;
       gu := with_initial_state init_state up0;
       fg_eval := FG_eval mps_to_mph coeffs |},
    lo, up, vars0, lo0, up0.
  split; [|repeat split; assumption].
  unfold Solve_problem.
  rewrite Hv, bind_Ok, Hb, bind_Ok, Hc, bind_Ok.
  rewrite (Solve_initial_state_ok init_state vars0 lo0 up0
             init_state_size Sv Sl0 Su0), bind_Ok.
  reflexivity.
Qed.

End ProblemFacts.

(** ** The extraction (lines 287-305) *)

Lemma vec_ext (a b : list R) :
  size a = size b ->
  (forall j, 0 <= j < size a -> ix a j = ix b j) ->
  a = b.
Proof.
  unfold size, ix. intros Hs Hp.
  apply (nth_ext a b 0%R 0%R); [lia|].
  intros n Hn. specialize (Hp (Z.of_nat n)).
  rewrite Nat2Z.id in Hp. apply Hp. lia.
Qed.

Lemma size_slice (v : list R) (start len : Z) :
  0 <= start -> 0 <= len -> start + len <= size v ->
  size (slice v start len) = len.
Proof.
  unfold size, slice. intros H0 H1 H2.
  rewrite length_firstn, length_skipn. lia.
Qed.

Lemma ix_slice (v : list R) (start len j : Z) :
  0 <= start -> 0 <= j < len ->
  ix (slice v start len) j = ix v (start + j).
Proof.
  unfold ix, slice. intros H0 Hj.
  rewrite nth_firstn.
  replace (Z.to_nat j <? Z.to_nat len)%nat with true
    by (symmetry; apply Nat.ltb_lt; lia).
  rewrite nth_skipn. f_equal. lia.
Qed.

Lemma Solve_trajectory_ok (sol : list R) :
  n_vars <= size sol ->
  Solve_trajectory sol
  = Ok (slice sol x_start solver_N, slice sol y_start solver_N).
Proof.
  intros Hsol. unfold Solve_trajectory. cbv zeta.
  rewrite n_vars_val in Hsol.
  set (body := fun (i : Z) (s : list R * list R) => _).
  set (I := fun (k : Z) (s : list R * list R) =>
              size (fst s) = solver_N /\ size (snd s) = solver_N
              /\ (forall j, 0 <= j < k ->
                    ix (fst s) j = ix sol (x_start + j)
                    /\ ix (snd s) j = ix sol (y_start + j))).
  destruct (for_range_inv I body 0 solver_N
              (repeat 0%R (Z.to_nat solver_N), repeat 0%R (Z.to_nat solver_N)))
    as ([sx sy] & Hrun & S1 & S2 & Hall).
  - rewrite solver_N_val. lia.
  - unfold I. cbn [fst snd]. repeat split; intros; lia.
  - intros t [sx sy] Ht (S1 & S2 & Hall). cbn [fst snd] in *.
    exists (upd sx t (ix sol (x_start + t)), upd sy t (ix sol (y_start + t))).
    rewrite solver_N_val in *.
    split.
    + unfold body. cbn [fst snd]. layout.
      rewrite vec_get_ok, bind_Ok by lia.
      rewrite vec_set_ok, bind_Ok by lia.
      rewrite vec_get_ok, bind_Ok by lia.
      rewrite vec_set_ok, bind_Ok by lia.
      reflexivity.
    + unfold I. cbn [fst snd]. rewrite !size_upd, solver_N_val.
      split; [exact S1|]. split; [exact S2|].
      intros j Hj. destruct (Z.eq_dec j t) as [->|Hne].
      * rewrite !ix_upd_eq by lia. split; reflexivity.
      * rewrite !ix_upd_ne by lia. apply Hall. lia.
  - rewrite Hrun. cbn [fst snd] in *. rewrite solver_N_val in *.
    apply f_equal. f_equal.
    + apply vec_ext.
      * rewrite size_slice by (layout; lia). exact S1.
      * intros j Hj. rewrite ix_slice by (layout; lia). apply Hall. lia.
    + apply vec_ext.
      * rewrite size_slice by (layout; lia). exact S2.
      * intros j Hj. rewrite ix_slice by (layout; lia). apply Hall. lia.
Qed.

Lemma Solve_extract_ok (sol : list R) :
  n_vars <= size sol -> Solve_extract sol = Ok (extraction sol).
Proof.
  intros Hsol. unfold Solve_extract, extraction.
  rewrite (Solve_trajectory_ok sol Hsol).
  rewrite n_vars_val in Hsol.
  rewrite !vec_get_ok by (layout; lia).
  reflexivity.
Qed.

(** ** Solve as a whole *)

Section SolveRun.

Variable mps_to_mph : R.
Variable status_type : Type.
Variable success : status_type.
Variable status_eq_dec : forall a b : status_type, {a = b} + {a <> b}.
Variable ipopt_solve : ipopt_problem -> solve_result status_type.
Variable uninit : vec_name -> nat -> R.
Variable init_state coeffs : list R.
Variable w : world.

Hypothesis init_state_size : 6 <= size init_state.

(** The contract of the solver: the solution has one entry per variable. *)
Hypothesis solution_size : forall p, size (x (ipopt_solve p)) = size (xi p).

Lemma Solve_ok :
  exists p,
    Solve_problem mps_to_mph uninit init_state coeffs = Ok p
    /\ size (xi p) = n_vars
    /\ Solve mps_to_mph status_type success status_eq_dec ipopt_solve uninit
         init_state coeffs w
       = Ok (extraction (x (ipopt_solve p)),
             {| cerr := cerr w
                        ++ warning_for success status_eq_dec
                             (status (ipopt_solve p));
                ipopt_calls := ipopt_calls w ++ [p] |}).
Proof.
  destruct (Solve_problem_ok mps_to_mph uninit init_state coeffs
              init_state_size)
    as (p & lo & up & vars0 & lo0 & up0 & Hp & _ & Hv & _ & Ep).
  destruct (Solve_vars_ok uninit) as (vars0' & Hv' & Sv & _).
  assert (vars0' = vars0) by congruence. subst vars0'.
  assert (Sxi : size (xi p) = n_vars).
  { rewrite Ep. cbn [xi]. rewrite size_with_initial_state. exact Sv. }
  exists p. split; [exact Hp|]. split; [exact Sxi|].
  unfold Solve. rewrite Hp, bind_Ok. cbv zeta.
  rewrite Solve_extract_ok by (rewrite solution_size, Sxi; lia).
  rewrite bind_Ok. unfold warning_for.
  destruct (status_eq_dec (status (ipopt_solve p)) success); cbn [negb].
  - unfold record_call. cbn [cerr ipopt_calls]. rewrite app_nil_r. reflexivity.
  - reflexivity.
Qed.

End SolveRun.

(** ** The layout of the decision vector (lines 39-49) *)

(** C4: the horizon has at least two steps; the decision vector that [Solve]
    allocates has [6 N + 2 (N - 1)] entries; the segments x, y, psi, v, cte,
    epsi (of [N] entries) and delta, a (of [N - 1] entries) follow one
    another in this order from index 0 to the end of the vector, each
    starting where the one before ends; every index of the vector lies in
    one segment and in no other.  The arithmetic of lines 39-47 gives the
    same shape for every other horizon of at least two steps. *)
Theorem decision_vector_layout (uninit : vec_name -> nat -> R) :
  2 <= solver_N
  /\ n_vars = 6 * solver_N + 2 * (solver_N - 1)
  /\ (exists vars,
        Solve_vars uninit = Ok vars
        /\ size vars = 6 * solver_N + 2 * (solver_N - 1))
  /\ seg_start Seg_x = 0
  /\ seg_end Seg_a = n_vars
  /\ (forall s, seg_end s = seg_start s + seg_len s)
  /\ (forall i, 0 <= i < n_vars -> exists s, in_segment s i)
  /\ (forall s s' i, in_segment s i -> in_segment s' i -> s = s')
  /\ layout_for solver_N
     = [x_start; y_start; psi_start; v_start; cte_start; epsi_start;
        delta_start; a_start; n_vars]
  /\ (forall N, 2 <= N -> 8 * N - 2 < 18446744073709551616 ->
        layout_for N
        = [0; N; 2 * N; 3 * N; 4 * N; 5 * N; 6 * N; 6 * N + (N - 1);
           6 * N + 2 * (N - 1)]).
Proof.
  split; [rewrite solver_N_val; lia|].
  split; [reflexivity|].
  split.
  { destruct (Solve_vars_ok uninit) as (vars & Hrun & Sz & _).
    exists vars. split; [exact Hrun|]. rewrite Sz. reflexivity. }
  split; [reflexivity|].
  split; [reflexivity|].
  split; [intros s; destruct s; reflexivity|].
  split.
  - intros i Hi. rewrite n_vars_val in Hi.
    assert (C : i < 12 \/ 12 <= i < 24 \/ 24 <= i < 36 \/ 36 <= i < 48
                \/ 48 <= i < 60 \/ 60 <= i < 72 \/ 72 <= i < 83 \/ 83 <= i)
      by lia.
    destruct C as [C|[C|[C|[C|[C|[C|[C|C]]]]]]];
      [exists Seg_x | exists Seg_y | exists Seg_psi | exists Seg_v
       | exists Seg_cte | exists Seg_epsi | exists Seg_delta | exists Seg_a];
      unfold in_segment; cbn [seg_start seg_len]; layout; lia.
  - split; [|split; [reflexivity | exact layout_for_every_horizon]].
    intros s s' i. unfold in_segment.
    destruct s, s'; cbn [seg_start seg_len]; layout; intros H H';
      try reflexivity; lia.
Qed.

(** ** The bounds of the variables (lines 220-242) *)

(** C7: the bound vectors that [Solve] builds and hands to the solver hold,
    at every index of the v, delta and a segments, minus and plus
    [speed_limit], [max_delta] and [max_acc]; at every index of the x, y,
    psi, cte and epsi segments they hold minus and plus 1.0e19, which the
    solver takes for no bound: these entries are unconstrained. *)
Theorem variable_bounds_by_segment
    (mps_to_mph : R) (uninit : vec_name -> nat -> R) :
  exists lo up,
    Solve_vars_bounds mps_to_mph uninit = Ok (lo, up)
    /\ size lo = n_vars /\ size up = n_vars
    /\ (forall s i, in_segment s i ->
          ix lo i = (- seg_limit mps_to_mph s)%R
          /\ ix up i = seg_limit mps_to_mph s)
    /\ (forall s i, In s [Seg_x; Seg_y; Seg_psi; Seg_cte; Seg_epsi] ->
          in_segment s i ->
          seg_limit mps_to_mph s = 1.0e19%R
          /\ unconstrained (ix lo i) (ix up i))
    /\ seg_limit mps_to_mph Seg_v = speed_limit mps_to_mph
    /\ seg_limit mps_to_mph Seg_delta = max_delta
    /\ seg_limit mps_to_mph Seg_a = max_acc
    /\ (forall init_state coeffs p,
          Solve_problem mps_to_mph uninit init_state coeffs = Ok p ->
          xl p = lo /\ xu p = up).
Proof.
  destruct (Solve_vars_bounds_ok mps_to_mph uninit)
    as (lo & up & Hb & Sl & Su & Hseg).
  exists lo, up.
  split; [exact Hb|]. split; [exact Sl|]. split; [exact Su|].
  split; [exact Hseg|].
  split.
  { intros s i Hs Hi. destruct (Hseg s i Hi) as [-> ->].
    unfold unconstrained. simpl in Hs.
    destruct Hs as [<-|[<-|[<-|[<-|[<-|[]]]]]];
      (split; [reflexivity | cbn [seg_limit]; split; apply Rle_refl]). }
  split; [reflexivity|]. split; [reflexivity|]. split; [reflexivity|].
  intros init_state coeffs p Hp. unfold Solve_problem in Hp.
  destruct (Solve_vars_ok uninit) as (vars0 & Hv & _).
  destruct (Solve_constraints_bounds_ok uninit) as (lo0 & up0 & Hc & _).
  rewrite Hv, bind_Ok, Hb, bind_Ok, Hc, bind_Ok in Hp.
  destruct (Solve_initial_state init_state (vars0, (lo0, up0)))
    as [s|f]; cbn [bind] in Hp; [|discriminate Hp].
  injection Hp as <-. cbn [xl xu fst snd]. split; reflexivity.
Qed.

(** ** What Solve returns (lines 287-305) *)

(** C8: when the solver returns a solution of the size of the decision
    vector, [Solve] returns the entry of the solution at [delta_start], the
    entry at [a_start], and the [solver_N] entries from [x_start] and from
    [y_start] on, in order, entry 0 of each being the current step. *)
Theorem solve_returns_heads_and_segments
    (mps_to_mph : R) (status_type : Type) (success : status_type)
    (status_eq_dec : forall a b : status_type, {a = b} + {a <> b})
    (ipopt_solve : ipopt_problem -> solve_result status_type)
    (uninit : vec_name -> nat -> R) (init_state coeffs : list R) (w : world) :
  6 <= size init_state ->
  (forall p, size (x (ipopt_solve p)) = size (xi p)) ->
  exists p next_delta next_a solved_x solved_y w',
    Solve_problem mps_to_mph uninit init_state coeffs = Ok p
    /\ Solve mps_to_mph status_type success status_eq_dec ipopt_solve uninit
         init_state coeffs w
       = Ok ((next_delta, next_a, solved_x, solved_y), w')
    /\ next_delta = ix (x (ipopt_solve p)) delta_start
    /\ next_a = ix (x (ipopt_solve p)) a_start
    /\ size solved_x = solver_N
    /\ size solved_y = solver_N
    /\ forall i, 0 <= i < solver_N ->
         ix solved_x i = ix (x (ipopt_solve p)) (x_start + i)
         /\ ix solved_y i = ix (x (ipopt_solve p)) (y_start + i).
Proof.
  intros Hi Hsol.
  destruct (Solve_ok mps_to_mph status_type success status_eq_dec ipopt_solve
              uninit init_state coeffs w Hi Hsol) as (p & Hp & Sxi & Hrun).
  assert (Hs : n_vars <= size (x (ipopt_solve p))) by (rewrite Hsol; lia).
  rewrite n_vars_val in Hs.
  unfold extraction in Hrun.
  do 6 eexists. split; [exact Hp|]. split; [exact Hrun|].
  split; [reflexivity|]. split; [reflexivity|].
  split; [apply size_slice; layout; lia|].
  split; [apply size_slice; layout; lia|].
  intros i Hi'. rewrite !ix_slice by (revert Hi'; layout; lia).
  split; reflexivity.
Qed.

Lemma solve_returns_heads_and_segments_witness :
  exists p next_delta next_a solved_x solved_y w',
    Solve_problem example_mps_to_mph example_uninit example_init_state
      example_coeffs = Ok p
    /\ Solve example_mps_to_mph bool true Bool.bool_dec example_solver
         example_uninit example_init_state example_coeffs example_world
       = Ok ((next_delta, next_a, solved_x, solved_y), w')
    /\ next_delta = ix (x (example_solver p)) delta_start
    /\ next_a = ix (x (example_solver p)) a_start
    /\ size solved_x = solver_N
    /\ size solved_y = solver_N
    /\ forall i, 0 <= i < solver_N ->
         ix solved_x i = ix (x (example_solver p)) (x_start + i)
         /\ ix solved_y i = ix (x (example_solver p)) (y_start + i).
Proof.
  apply (solve_returns_heads_and_segments example_mps_to_mph bool true
           Bool.bool_dec example_solver example_uninit example_init_state
           example_coeffs example_world).
  - unfold size. simpl. lia.
  - intros p. reflexivity.
Defined.

(** C9: whatever status the solver reports, [Solve] calls it once and
    returns the extraction of its solution vector; the status decides only
    whether the warning line is written to [std::cerr].  No status makes
    [Solve] fault, call the solver again or return another value. *)
Theorem solve_extracts_for_every_status
    (mps_to_mph : R) (status_type : Type) (success : status_type)
    (status_eq_dec : forall a b : status_type, {a = b} + {a <> b})
    (ipopt_solve : ipopt_problem -> solve_result status_type)
    (uninit : vec_name -> nat -> R) (init_state coeffs : list R) (w : world) :
  6 <= size init_state ->
  (forall p, size (x (ipopt_solve p)) = size (xi p)) ->
  exists p w',
    Solve_problem mps_to_mph uninit init_state coeffs = Ok p
    /\ Solve_extract (x (ipopt_solve p)) = Ok (extraction (x (ipopt_solve p)))
    /\ Solve mps_to_mph status_type success status_eq_dec ipopt_solve uninit
         init_state coeffs w
       = Ok (extraction (x (ipopt_solve p)), w')
    /\ ipopt_calls w' = ipopt_calls w ++ [p]
    /\ (status (ipopt_solve p) = success -> cerr w' = cerr w)
    /\ (status (ipopt_solve p) <> success -> cerr w' = cerr w ++ [warning]).
Proof.
  intros Hi Hsol.
  destruct (Solve_ok mps_to_mph status_type success status_eq_dec ipopt_solve
              uninit init_state coeffs w Hi Hsol) as (p & Hp & Sxi & Hrun).
  exists p. eexists. split; [exact Hp|].
  split; [apply Solve_extract_ok; rewrite Hsol; lia|].
  split; [exact Hrun|].
  cbn [cerr ipopt_calls]. unfold warning_for.
  split; [reflexivity|].
  destruct (status_eq_dec (status (ipopt_solve p)) success) as [E|E].
  - split; [intros _; apply app_nil_r | intros N; contradiction].
  - split; [intros E'; contradiction | intros _; reflexivity].
Qed.

Lemma solve_extracts_for_every_status_witness :
  exists p w',
    Solve_problem example_mps_to_mph example_uninit example_init_state
      example_coeffs = Ok p
    /\ Solve_extract (x (example_solver p))
       = Ok (extraction (x (example_solver p)))
    /\ Solve example_mps_to_mph bool true Bool.bool_dec example_solver
         example_uninit example_init_state example_coeffs example_world
       = Ok (extraction (x (example_solver p)), w')
    /\ ipopt_calls w' = ipopt_calls example_world ++ [p]
    /\ (status (example_solver p) = true -> cerr w' = cerr example_world)
    /\ (status (example_solver p) <> true ->
        cerr w' = cerr example_world ++ [warning]).
Proof.
  apply (solve_extracts_for_every_status example_mps_to_mph bool true
           Bool.bool_dec example_solver example_uninit example_init_state
           example_coeffs example_world).
  - unfold size. simpl. lia.
  - intros p. reflexivity.
Defined.

(** ** The initial state (lines 109-114 and 246-258) *)

Lemma head_of_index (k i : Z) : head_of k i -> 0 <= k < 6 /\ i = k * solver_N.
Proof.
  unfold head_of. layout.
  intros [[-> ->]|[[-> ->]|[[-> ->]|[[-> ->]|[[-> ->]|[-> ->]]]]]]; lia.
Qed.

Lemma is_head_values (i : Z) :
  is_head i <-> i = 0 \/ i = 12 \/ i = 24 \/ i = 36 \/ i = 48 \/ i = 60.
Proof.
  unfold is_head, head_of. layout. split.
  - intros (k & H). lia.
  - intros [->|[->|[->|[->|[->| ->]]]]];
      [exists 0 | exists 1 | exists 2 | exists 3 | exists 4 | exists 5]; lia.
Qed.

Lemma is_head_dec (i : Z) : is_head i \/ ~ is_head i.
Proof. rewrite is_head_values. lia. Qed.

(** The constraint bounds that [Solve] hands to the solver. *)
Lemma Solve_problem_constraints
    (mps_to_mph : R) (uninit : vec_name -> nat -> R)
    (init_state coeffs : list R) :
  6 <= size init_state ->
  exists p,
    Solve_problem mps_to_mph uninit init_state coeffs = Ok p
    /\ fg_eval p = FG_eval mps_to_mph coeffs
    /\ size (gl p) = n_constraints /\ size (gu p) = n_constraints
    /\ (forall k i, head_of k i ->
          ix (gl p) i = ix init_state k /\ ix (gu p) i = ix init_state k)
    /\ (forall i, 0 <= i < n_constraints -> ~ is_head i ->
          ix (gl p) i = 0%R /\ ix (gu p) i = 0%R).
Proof.
  intros Hi.
  destruct (Solve_problem_ok mps_to_mph uninit init_state coeffs Hi)
    as (p & lo & up & vars0 & lo0 & up0 & Hp & _ & _ & Hc & ->).
  destruct (Solve_constraints_bounds_ok uninit)
    as (lo0' & up0' & Hc' & Sl & Su & Hz).
  assert (E : (lo0', up0') = (lo0, up0)) by congruence.
  injection E as -> ->.
  eexists. split; [exact Hp|]. cbn [fg_eval gl gu].
  split; [reflexivity|].
  rewrite !size_with_initial_state.
  split; [exact Sl|]. split; [exact Su|].
  split.
  - intros k i Hh. split; apply with_initial_state_head;
      try exact Hh; rewrite ?Sl, ?Su; layout; lia.
  - intros i Hr Hn. rewrite !with_initial_state_other by (lia || exact Hn).
    apply Hz. exact Hr.
Qed.

(** C3, as the spec states it, fails.  For the initial state
    [0; 1; 0; 30; 1; 0] the second entry of the constraint bounds is 0 and
    not [init_state[1] = 1], and entry 12, which is not among the first six,
    holds 1 and not 0; for a decision vector with [y = 1] at the current step
    the second residual is 0, not that variable. *)
Lemma pins_are_not_the_first_six :
  exists p fg',
    Solve_problem example_mps_to_mph example_uninit example_init_state
      example_coeffs = Ok p
    /\ fg_eval p example_fg example_vars_y1 = Ok fg'
    /\ ix example_init_state 1 = 1%R
    /\ ix (gl p) 1 = 0%R /\ ix (gu p) 1 = 0%R
    /\ ix (gl p) 1 <> ix example_init_state 1
    /\ ix (gl p) 12 = 1%R /\ ix (gu p) 12 = 1%R
    /\ ix (gl p) 12 <> 0%R
    /\ ix example_vars_y1 y_start = 1%R
    /\ ix fg' (1 + 1) = 0%R
    /\ ix fg' (1 + 1) <> ix example_vars_y1 y_start.
Proof.
  destruct (Solve_problem_constraints example_mps_to_mph example_uninit
              example_init_state example_coeffs)
    as (p & Hp & Hfg & _ & _ & Hhead & Hzero).
  { unfold size. simpl. lia. }
  destruct (FG_eval_ok example_coeffs example_vars_y1) with
    (mps_to_mph := example_mps_to_mph) (fg := example_fg)
    as (fg' & Hrun & _ & _ & _ & Hres).
  { reflexivity. }
  { unfold size. simpl. lia. }
  { reflexivity. }
  exists p, fg'. split; [exact Hp|]. split; [rewrite Hfg; exact Hrun|].
  assert (N1 : ~ is_head 1) by (rewrite is_head_values; lia).
  assert (H12 : head_of 1 12) by (unfold head_of; layout; lia).
  destruct (Hzero 1) as [Z1 Z2]; [rewrite n_constraints_val; lia | exact N1 |].
  destruct (Hhead 1 12 H12) as [O1 O2].
  assert (I1 : ix example_init_state 1 = 1%R) by reflexivity.
  assert (V1 : ix example_vars_y1 y_start = 1%R) by reflexivity.
  assert (F2 : ix fg' (1 + 1) = 0%R).
  { destruct (Hres 1) as (Rx & _); [rewrite solver_N_val; lia|].
    change (1 + x_start + 1) with (1 + 1) in Rx. rewrite Rx.
    unfold predict, state_at, actuation_at. cbn [st_x st_v st_psi].
    change (ix example_vars_y1 (x_start + 1)) with 0%R.
    change (ix example_vars_y1 (x_start + (1 - 1))) with 0%R.
    change (ix example_vars_y1 (v_start + (1 - 1))) with 0%R.
    ring. }
  rewrite Z1, Z2, O1, O2, I1, V1, F2.
  repeat split; lra.
Qed.

(** C3 (amended): the constraint bounds have [6 N] entries and the
    evaluation fills [1 + 6 N]; the six residuals of the initial step sit at
    the heads of the state segments, the indices 0, N, 2 N, 3 N, 4 N and
    5 N, where each is the decision variable at the same index; lower and
    upper bound agree everywhere, holding the entry of [init_state] at those
    six indices and zero at every other index. *)
Theorem initial_state_pinned_at_segment_heads
    (mps_to_mph : R) (uninit : vec_name -> nat -> R)
    (init_state coeffs fg vars : list R) :
  6 <= size init_state ->
  2 <= size coeffs ->
  size vars = n_vars ->
  size fg = 1 + n_constraints ->
  exists p fg',
    Solve_problem mps_to_mph uninit init_state coeffs = Ok p
    /\ fg_eval p fg vars = Ok fg'
    /\ n_constraints = 6 * solver_N
    /\ size (gl p) = n_constraints
    /\ size (gu p) = n_constraints
    /\ size fg' = 1 + n_constraints
    /\ (forall i, 0 <= i < n_constraints -> ix (gl p) i = ix (gu p) i)
    /\ (forall k i, head_of k i ->
          i = k * solver_N
          /\ ix fg' (1 + i) = ix vars i
          /\ ix (gl p) i = ix init_state k
          /\ ix (gu p) i = ix init_state k)
    /\ (forall i, 0 <= i < n_constraints -> ~ is_head i ->
          ix (gl p) i = 0%R /\ ix (gu p) i = 0%R).
Proof.
  intros Hi Hc Hv Hfg.
  destruct (Solve_problem_constraints mps_to_mph uninit init_state coeffs Hi)
    as (p & Hp & Efg & Sl & Su & Hhead & Hzero).
  destruct (FG_eval_ok coeffs vars Hv Hc mps_to_mph fg Hfg)
    as (fg' & Hrun & Sfg & _ & Hpin & _).
  exists p, fg'.
  split; [exact Hp|]. split; [rewrite Efg; exact Hrun|].
  split; [reflexivity|]. split; [exact Sl|]. split; [exact Su|].
  split; [congruence|].
  split.
  - intros i Hr. destruct (is_head_dec i) as [(k & Hk)|Hn].
    + destruct (Hhead k i Hk) as [-> ->]. reflexivity.
    + destruct (Hzero i Hr Hn) as [-> ->]. reflexivity.
  - split; [|exact Hzero].
    intros k i Hk.
    destruct (head_of_index k i Hk) as [_ Ei].
    destruct (Hhead k i Hk) as [G1 G2].
    split; [exact Ei|]. split; [|split; assumption].
    destruct Hpin as (P1 & P2 & P3 & P4 & P5 & P6).
    unfold head_of in Hk.
    destruct Hk as [[_ ->]|[[_ ->]|[[_ ->]|[[_ ->]|[[_ ->]|[_ ->]]]]]];
      assumption.
Qed.

Lemma initial_state_pinned_at_segment_heads_witness :
  exists p fg',
    Solve_problem example_mps_to_mph example_uninit example_init_state
      example_coeffs = Ok p
    /\ fg_eval p example_fg example_vars_y1 = Ok fg'
    /\ n_constraints = 6 * solver_N
    /\ size (gl p) = n_constraints
    /\ size (gu p) = n_constraints
    /\ size fg' = 1 + n_constraints
    /\ (forall i, 0 <= i < n_constraints -> ix (gl p) i = ix (gu p) i)
    /\ (forall k i, head_of k i ->
          i = k * solver_N
          /\ ix fg' (1 + i) = ix example_vars_y1 i
          /\ ix (gl p) i = ix example_init_state k
          /\ ix (gu p) i = ix example_init_state k)
    /\ (forall i, 0 <= i < n_constraints -> ~ is_head i ->
          ix (gl p) i = 0%R /\ ix (gu p) i = 0%R).
Proof.
  apply (initial_state_pinned_at_segment_heads example_mps_to_mph
           example_uninit example_init_state example_coeffs example_fg
           example_vars_y1).
  - unfold size. simpl. lia.
  - unfold size. simpl. lia.
  - reflexivity.
  - reflexivity.
Defined.

(** ** More on polyeval_AD (lines 51-58) *)

Lemma poly_from_at_zero :
  forall (cs : list R) (i : nat), poly_from cs (Datatypes.S i) 0 = 0%R.
Proof.
  induction cs as [|c cs IH]; intros i.
  - reflexivity.
  - simpl poly_from. rewrite IH. simpl pow. ring.
Qed.

(** X2: at [x = 0] the polynomial is its constant coefficient, because
    [pow(0, 0)] is 1; with no coefficient at all it is 0. *)
Theorem polyeval_AD_at_origin (coeffs : list R) :
  polyeval_AD coeffs 0 = Ok (ix coeffs 0)
  /\ (coeffs = [] -> polyeval_AD coeffs 0 = Ok 0%R).
Proof.
  split.
  - rewrite polyeval_AD_ok. unfold P. apply f_equal.
    destruct coeffs as [|c cs].
    + reflexivity.
    + simpl poly_from. rewrite poly_from_at_zero.
      change (ix (c :: cs) 0) with c. simpl pow. ring.
  - intros ->. rewrite polyeval_AD_ok. reflexivity.
Qed.

Lemma poly_from_app (x : R) :
  forall (cs ds : list R) (i : nat),
    poly_from (cs ++ ds) i x
    = (poly_from cs i x + poly_from ds (i + length cs) x)%R.
Proof.
  induction cs as [|c cs IH]; intros ds i.
  - simpl. rewrite Nat.add_0_r. ring.
  - simpl app. simpl poly_from. rewrite IH. simpl length.
    replace (Datatypes.S i + length cs)%nat with (i + Datatypes.S (length cs))%nat
      by lia.
    ring.
Qed.

(** X3: one more coefficient costs one more turn of the loop: the result
    for [coeffs ++ [c]] is the result for [coeffs] plus the one term
    [c * pow(x, n)], where [n] is the number of coefficients before. *)
Theorem polyeval_AD_append (coeffs : list R) (c x : R) :
  exists r,
    polyeval_AD coeffs x = Ok r
    /\ polyeval_AD (coeffs ++ [c]) x = Ok (r + c * x ^ length coeffs)%R.
Proof.
  exists (P coeffs x). rewrite !polyeval_AD_ok. split; [reflexivity|].
  unfold P. rewrite !poly_from_app.
  simpl poly_from. apply f_equal. ring.
Qed.

(** ** More on FG_eval (lines 72-147) *)

(** Two output vectors that agree on the cost and on the six entries of
    every step are equal. *)
Lemma fg_ext (a b : list R) :
  size a = 1 + n_constraints ->
  size b = 1 + n_constraints ->
  ix a 0 = ix b 0 ->
  (forall t, 0 <= t < solver_N ->
     ix a (1 + x_start + t) = ix b (1 + x_start + t)
     /\ ix a (1 + y_start + t) = ix b (1 + y_start + t)
     /\ ix a (1 + psi_start + t) = ix b (1 + psi_start + t)
     /\ ix a (1 + v_start + t) = ix b (1 + v_start + t)
     /\ ix a (1 + cte_start + t) = ix b (1 + cte_start + t)
     /\ ix a (1 + epsi_start + t) = ix b (1 + epsi_start + t)) ->
  a = b.
Proof.
  intros Sa Sb H0 Hall. apply vec_ext; [congruence|].
  intros j Hj. rewrite Sa, n_constraints_val in Hj.
  revert Hall. layout. intros Hall.
  assert (C : j = 0 \/ 1 <= j < 13 \/ 13 <= j < 25 \/ 25 <= j < 37
              \/ 37 <= j < 49 \/ 49 <= j < 61 \/ 61 <= j < 73) by lia.
  destruct C as [->|[C|[C|[C|[C|[C|C]]]]]]; [exact H0|..].
  - destruct (Hall (j - 1)) as (E & _); [lia|].
    replace (1 + 0 + (j - 1)) with j in E by lia. exact E.
  - destruct (Hall (j - 13)) as (_ & E & _); [lia|].
    replace (1 + 12 + (j - 13)) with j in E by lia. exact E.
  - destruct (Hall (j - 25)) as (_ & _ & E & _); [lia|].
    replace (1 + 24 + (j - 25)) with j in E by lia. exact E.
  - destruct (Hall (j - 37)) as (_ & _ & _ & E & _); [lia|].
    replace (1 + 36 + (j - 37)) with j in E by lia. exact E.
  - destruct (Hall (j - 49)) as (_ & _ & _ & _ & E & _); [lia|].
    replace (1 + 48 + (j - 49)) with j in E by lia. exact E.
  - destruct (Hall (j - 61)) as (_ & _ & _ & _ & _ & E); [lia|].
    replace (1 + 60 + (j - 61)) with j in E by lia. exact E.
Qed.

(** The entries that [FG_eval] leaves for step [t]: the pinned variables for
    the initial step, the residuals of the model for the others. *)
Lemma FG_eval_step_entries (coeffs vars fg' : list R) (t : Z) :
  pinned_at_heads vars fg' ->
  (forall t, 1 <= t < solver_N -> residuals_at coeffs vars fg' t) ->
  0 <= t < solver_N ->
  (t = 0 /\ pinned_at_heads vars fg')
  \/ (1 <= t /\ residuals_at coeffs vars fg' t).
Proof.
  intros Hpin Hres Ht. destruct (Z.eq_dec t 0) as [->|Hne].
  - left. split; [reflexivity | exact Hpin].
  - right. split; [lia | apply Hres; lia].
Qed.

(** X4: [FG_eval] assigns every entry of [fg]: what it returns does not
    depend on what [fg] held when it was called. *)
Theorem FG_eval_overwrites_fg
    (mps_to_mph : R) (coeffs vars fg1 fg2 : list R) :
  2 <= size coeffs ->
  size vars = n_vars ->
  size fg1 = 1 + n_constraints ->
  size fg2 = 1 + n_constraints ->
  exists fg',
    FG_eval mps_to_mph coeffs fg1 vars = Ok fg'
    /\ FG_eval mps_to_mph coeffs fg2 vars = Ok fg'.
Proof.
  intros Hc Hv H1 H2.
  destruct (FG_eval_ok coeffs vars Hv Hc mps_to_mph fg1 H1)
    as (a & Ra & Sa & Ca & Pa & Fa).
  destruct (FG_eval_ok coeffs vars Hv Hc mps_to_mph fg2 H2)
    as (b & Rb & Sb & Cb & Pb & Fb).
  exists a. split; [exact Ra|]. rewrite Rb. apply f_equal. symmetry.
  apply fg_ext; [congruence | congruence | congruence |].
  intros t Ht.
  destruct (FG_eval_step_entries coeffs vars a t Pa Fa Ht) as [[-> Qa]|[T Qa]];
    destruct (FG_eval_step_entries coeffs vars b _ Pb Fb Ht) as [[E Qb]|[T' Qb]];
    try lia.
  - unfold pinned_at_heads in *. rewrite !Z.add_0_r.
    destruct Qa as (A1 & A2 & A3 & A4 & A5 & A6).
    destruct Qb as (B1 & B2 & B3 & B4 & B5 & B6).
    change (1 + x_start) with 1 in A1, B1.
    repeat split; congruence.
  - unfold residuals_at in *. cbv zeta in *.
    destruct Qa as (A1 & A2 & A3 & A4 & A5 & A6).
    destruct Qb as (B1 & B2 & B3 & B4 & B5 & B6).
    repeat split; congruence.
Qed.

Lemma FG_eval_overwrites_fg_witness :
  exists fg',
    FG_eval example_mps_to_mph example_coeffs example_fg example_vars = Ok fg'
    /\ FG_eval example_mps_to_mph example_coeffs (vec_of 73 IZR) example_vars
       = Ok fg'.
Proof.
  apply (FG_eval_overwrites_fg example_mps_to_mph example_coeffs example_vars
           example_fg (vec_of 73 IZR)).
  - unfold size. simpl. lia.
  - reflexivity.
  - reflexivity.
  - reflexivity.
Defined.

Lemma state_fields_eq (s s' : state) :
  st_x s = st_x s' -> st_y s = st_y s' -> st_psi s = st_psi s' ->
  st_v s = st_v s' -> st_cte s = st_cte s' -> st_epsi s = st_epsi s' ->
  s = s'.
Proof.
  destruct s, s'. cbn [st_x st_y st_psi st_v st_cte st_epsi].
  intros -> -> -> -> -> ->. reflexivity.
Qed.

(** X5: the equality constraints of the future steps say that the
    trajectory follows the model.  The residuals that [FG_eval] stores for
    the steps 1 .. N-1 are all zero exactly when the state of every such
    step is the model's prediction from the state and the actuation of the
    step before. *)
Theorem zero_residuals_iff_model_followed
    (mps_to_mph : R) (coeffs fg vars : list R) :
  2 <= size coeffs ->
  size vars = n_vars ->
  size fg = 1 + n_constraints ->
  exists fg',
    FG_eval mps_to_mph coeffs fg vars = Ok fg'
    /\ ((forall t, 1 <= t < solver_N ->
           ix fg' (1 + x_start + t) = 0%R
           /\ ix fg' (1 + y_start + t) = 0%R
           /\ ix fg' (1 + psi_start + t) = 0%R
           /\ ix fg' (1 + v_start + t) = 0%R
           /\ ix fg' (1 + cte_start + t) = 0%R
           /\ ix fg' (1 + epsi_start + t) = 0%R)
        <-> (forall t, 1 <= t < solver_N ->
               state_at vars t
               = predict coeffs (state_at vars (t - 1))
                   (actuation_at vars (t - 1)))).
Proof.
  intros Hc Hv Hfg.
  destruct (FG_eval_ok coeffs vars Hv Hc mps_to_mph fg Hfg)
    as (fg' & Hrun & _ & _ & _ & Hres).
  exists fg'. split; [exact Hrun|]. split.
  - intros Hz t Ht.
    destruct (Hres t Ht) as (R1 & R2 & R3 & R4 & R5 & R6).
    destruct (Hz t Ht) as (Z1 & Z2 & Z3 & Z4 & Z5 & Z6).
    rewrite Z1 in R1. rewrite Z2 in R2. rewrite Z3 in R3.
    rewrite Z4 in R4. rewrite Z5 in R5. rewrite Z6 in R6.
    apply state_fields_eq; apply Rminus_diag_uniq; symmetry; assumption.
  - intros Hm t Ht.
    destruct (Hres t Ht) as (R1 & R2 & R3 & R4 & R5 & R6).
    rewrite R1, R2, R3, R4, R5, R6. rewrite <- (Hm t Ht).
    repeat split; ring.
Qed.

Lemma zero_residuals_iff_model_followed_witness :
  exists fg',
    FG_eval example_mps_to_mph example_coeffs example_fg example_vars = Ok fg'
    /\ ((forall t, 1 <= t < solver_N ->
           ix fg' (1 + x_start + t) = 0%R
           /\ ix fg' (1 + y_start + t) = 0%R
           /\ ix fg' (1 + psi_start + t) = 0%R
           /\ ix fg' (1 + v_start + t) = 0%R
           /\ ix fg' (1 + cte_start + t) = 0%R
           /\ ix fg' (1 + epsi_start + t) = 0%R)
        <-> (forall t, 1 <= t < solver_N ->
               state_at example_vars t
               = predict example_coeffs (state_at example_vars (t - 1))
                   (actuation_at example_vars (t - 1)))).
Proof.
  apply (zero_residuals_iff_model_followed example_mps_to_mph example_coeffs
           example_fg example_vars).
  - unfold size. simpl. lia.
  - reflexivity.
  - reflexivity.
Defined.

(** ** More on the cost (lines 75-101) *)

Lemma sum_from_ext (f g : Z -> R) :
  forall (n : nat) (lo : Z),
    (forall t, lo <= t < lo + Z.of_nat n -> f t = g t) ->
    sum_from n lo f = sum_from n lo g.
Proof.
  induction n as [|k IH]; intros lo H.
  - reflexivity.
  - simpl sum_from. rewrite (H lo) by lia.
    rewrite (IH (lo + 1)); [reflexivity|].
    intros t Ht. apply H. lia.
Qed.

Lemma cost_ext (mps_to_mph : R) (vars vars' : list R) :
  (forall j, v_start <= j < n_vars -> ix vars' j = ix vars j) ->
  cost mps_to_mph vars' = cost mps_to_mph vars.
Proof.
  layout. intros H. unfold cost. rewrite solver_N_val.
  rewrite (sum_from_ext (state_term mps_to_mph vars')
             (state_term mps_to_mph vars)).
  2:{ intros t Ht. unfold state_term. layout. rewrite !H by lia. reflexivity. }
  rewrite (sum_from_ext (actuator_term vars') (actuator_term vars)).
  2:{ intros t Ht. unfold actuator_term. layout. rewrite !H by lia.
      reflexivity. }
  rewrite (sum_from_ext (rate_term vars') (rate_term vars)).
  2:{ intros t Ht. unfold rate_term. layout. rewrite !H by lia.
      reflexivity. }
  reflexivity.
Qed.

(** X7: the cost never looks at the position or the heading: whatever value
    replaces an entry of the x, y or psi segment, the cost loops leave the
    same [fg]. *)
Theorem cost_ignores_position_and_heading
    (mps_to_mph : R) (vars fg : list R) (i : Z) (r : R) :
  size vars = n_vars ->
  0 < size fg ->
  0 <= i < v_start ->
  FG_cost mps_to_mph (upd vars i r) fg = FG_cost mps_to_mph vars fg
  /\ exists fg', FG_cost mps_to_mph vars fg = Ok fg'.
Proof.
  intros Hv Hfg Hi.
  rewrite (FG_cost_ok mps_to_mph vars Hv fg Hfg).
  rewrite (FG_cost_ok mps_to_mph (upd vars i r)) by
    (rewrite ?size_upd; assumption).
  split; [|eexists; reflexivity].
  apply f_equal, f_equal. apply cost_ext.
  revert Hi. layout. intros Hi j Hj. apply ix_upd_ne; lia.
Qed.

Lemma cost_ignores_position_and_heading_witness :
  FG_cost example_mps_to_mph (upd example_vars 13 5) example_fg
  = FG_cost example_mps_to_mph example_vars example_fg
  /\ exists fg', FG_cost example_mps_to_mph example_vars example_fg = Ok fg'.
Proof.
  apply (cost_ignores_position_and_heading example_mps_to_mph example_vars
           example_fg 13 5); [reflexivity | reflexivity |].
  rewrite v_start_val. lia.
Defined.

(** ** A vehicle on a straight path (lines 72-147) *)

Lemma size_vec_of (n : nat) (f : Z -> R) : size (vec_of n f) = Z.of_nat n.
Proof. unfold size, vec_of. rewrite length_map, length_seq. reflexivity. Qed.

Lemma ix_vec_of (n : nat) (f : Z -> R) (i : Z) :
  0 <= i < Z.of_nat n -> ix (vec_of n f) i = f i.
Proof.
  intros Hi. unfold ix, vec_of.
  rewrite (nth_indep _ 0%R (f (Z.of_nat 0)))
    by (rewrite length_map, length_seq; lia).
  rewrite (map_nth (fun k => f (Z.of_nat k)) (seq 0 n) 0%nat).
  rewrite seq_nth by lia. f_equal. lia.
Qed.

Section StraightLine.

Variable x0 c0 v : R.

Lemma straight_vars_x (t : Z) :
  0 <= t < solver_N ->
  ix (straight_vars x0 c0 v) (x_start + t)
  = add_n (Z.to_nat t) (v * solver_dt) x0.
Proof.
  layout. intros Ht. unfold straight_vars. rewrite ix_vec_of by lia. layout.
  destruct (Z.ltb_spec (0 + t) 12); [|lia]. reflexivity.
Qed.

Lemma straight_vars_y (t : Z) :
  0 <= t < solver_N -> ix (straight_vars x0 c0 v) (y_start + t) = c0.
Proof.
  layout. intros Ht. unfold straight_vars. rewrite ix_vec_of by lia. layout.
  destruct (Z.ltb_spec (12 + t) 12); [lia|].
  destruct (Z.ltb_spec (12 + t) 24); [|lia]. reflexivity.
Qed.

Lemma straight_vars_psi (t : Z) :
  0 <= t < solver_N -> ix (straight_vars x0 c0 v) (psi_start + t) = 0%R.
Proof.
  layout. intros Ht. unfold straight_vars. rewrite ix_vec_of by lia. layout.
  destruct (Z.ltb_spec (24 + t) 12); [lia|].
  destruct (Z.ltb_spec (24 + t) 24); [lia|].
  destruct (Z.ltb_spec (24 + t) 36); [|lia]. reflexivity.
Qed.

Lemma straight_vars_v (t : Z) :
  0 <= t < solver_N -> ix (straight_vars x0 c0 v) (v_start + t) = v.
Proof.
  layout. intros Ht. unfold straight_vars. rewrite ix_vec_of by lia. layout.
  destruct (Z.ltb_spec (36 + t) 12); [lia|].
  destruct (Z.ltb_spec (36 + t) 24); [lia|].
  destruct (Z.ltb_spec (36 + t) 36); [lia|].
  destruct (Z.ltb_spec (36 + t) 48); [|lia]. reflexivity.
Qed.

Lemma straight_vars_rest (j : Z) :
  cte_start <= j < n_vars -> ix (straight_vars x0 c0 v) j = 0%R.
Proof.
  layout. intros Hj. unfold straight_vars. rewrite ix_vec_of by lia. layout.
  destruct (Z.ltb_spec j 12); [lia|].
  destruct (Z.ltb_spec j 24); [lia|].
  destruct (Z.ltb_spec j 36); [lia|].
  destruct (Z.ltb_spec j 48); [lia|]. reflexivity.
Qed.

End StraightLine.

Lemma straight_vars_numerators (mps_to_mph x0 c0 : R) :
  all_numerators_zero mps_to_mph
    (straight_vars x0 c0 (speed_limit mps_to_mph)).
Proof.
  unfold all_numerators_zero. rewrite solver_N_val.
  split; [|split].
  - intros t Ht. split; [|split].
    + apply straight_vars_rest. layout. lia.
    + apply straight_vars_rest. layout. lia.
    + apply straight_vars_v. rewrite solver_N_val. lia.
  - intros t Ht. split; apply straight_vars_rest; layout; lia.
  - intros t Ht.
    rewrite !straight_vars_rest by (layout; lia). split; ring.
Qed.

(** X8: a vehicle on the straight path [y = c0], heading along it at the
    target speed.  Take the decision vector that drives straight on without
    steering or accelerating, each [x] being the [x] before plus [v * dt].
    It satisfies every constraint of the future steps and costs nothing, the
    least that any decision vector can cost. *)
Theorem straight_line_is_optimal (mps_to_mph x0 c0 : R) (fg : list R) :
  (0 < mps_to_mph)%R ->
  size fg = 1 + n_constraints ->
  exists fg',
    FG_eval mps_to_mph [c0; 0%R] fg
      (straight_vars x0 c0 (speed_limit mps_to_mph)) = Ok fg'
    /\ ix fg' 0 = 0%R
    /\ (ix fg' (1 + x_start) = x0 /\ ix fg' (1 + y_start) = c0
        /\ ix fg' (1 + psi_start) = 0%R
        /\ ix fg' (1 + v_start) = speed_limit mps_to_mph
        /\ ix fg' (1 + cte_start) = 0%R /\ ix fg' (1 + epsi_start) = 0%R)
    /\ (forall t, 1 <= t < solver_N ->
          ix fg' (1 + x_start + t) = 0%R
          /\ ix fg' (1 + y_start + t) = 0%R
          /\ ix fg' (1 + psi_start + t) = 0%R
          /\ ix fg' (1 + v_start + t) = 0%R
          /\ ix fg' (1 + cte_start + t) = 0%R
          /\ ix fg' (1 + epsi_start + t) = 0%R)
    /\ (forall vars2 fg2 fg2',
          size vars2 = n_vars ->
          size fg2 = 1 + n_constraints ->
          FG_eval mps_to_mph [c0; 0%R] fg2 vars2 = Ok fg2' ->
          (ix fg' 0 <= ix fg2' 0)%R).
Proof.
  intros Hm Hfg.
  set (vars := straight_vars x0 c0 (speed_limit mps_to_mph)).
  assert (Hv : size vars = n_vars) by (unfold vars, straight_vars; apply size_vec_of).
  assert (Hc : 2 <= size [c0; 0%R]) by (unfold size; simpl; lia).
  destruct (FG_eval_ok [c0; 0%R] vars Hv Hc mps_to_mph fg Hfg)
    as (fg' & Hrun & _ & Hcost & Hpin & Hres).
  assert (H0 : ix fg' 0 = 0%R).
  { rewrite Hcost. apply (cost_zero_iff mps_to_mph vars Hm).
    apply straight_vars_numerators. }
  exists fg'. split; [exact Hrun|]. split; [exact H0|]. split; [|split].
  - destruct Hpin as (P1 & P2 & P3 & P4 & P5 & P6).
    rewrite P1, P2, P3, P4, P5, P6. unfold vars.
    pose proof (straight_vars_x x0 c0 (speed_limit mps_to_mph) 0) as Ex.
    pose proof (straight_vars_y x0 c0 (speed_limit mps_to_mph) 0) as Ey.
    pose proof (straight_vars_psi x0 c0 (speed_limit mps_to_mph) 0) as Epsi.
    pose proof (straight_vars_v x0 c0 (speed_limit mps_to_mph) 0) as Ev.
    rewrite Z.add_0_r in Ex, Ey, Epsi, Ev.
    rewrite Ex, Ey, Epsi, Ev by (rewrite solver_N_val; lia).
    rewrite !straight_vars_rest by (layout; lia).
    repeat split; reflexivity.
  - intros t Ht.
    destruct (Hres t Ht) as (R1 & R2 & R3 & R4 & R5 & R6).
    rewrite R1, R2, R3, R4, R5, R6.
    unfold predict, state_at, actuation_at.
    cbn [st_x st_y st_psi st_v st_cte st_epsi act_delta act_a].
    unfold vars.
    rewrite !straight_vars_x, !straight_vars_y, !straight_vars_psi,
      !straight_vars_v by lia.
    rewrite !straight_vars_rest by (revert Ht; layout; lia).
    replace (Z.to_nat t) with (Datatypes.S (Z.to_nat (t - 1))) by lia.
    simpl add_n. rewrite cos_0, sin_0.
    change (ix [c0; 0%R] 1) with 0%R. rewrite atan_0.
    unfold P, Rdiv. simpl poly_from. simpl pow.
    repeat split; ring.
  - intros vars2 fg2 fg2' Hv2 Hfg2 Hrun2.
    destruct (FG_eval_ok [c0; 0%R] vars2 Hv2 Hc mps_to_mph fg2 Hfg2)
      as (fg3 & Hrun3 & _ & Hcost3 & _).
    assert (fg3 = fg2') by congruence. subst fg3.
    rewrite H0, Hcost3. apply cost_nonneg.
Qed.

Lemma straight_line_is_optimal_witness :
  exists fg',
    FG_eval example_mps_to_mph [1%R; 0%R] example_fg
      (straight_vars 0 1 (speed_limit example_mps_to_mph)) = Ok fg'
    /\ ix fg' 0 = 0%R
    /\ (ix fg' (1 + x_start) = 0%R /\ ix fg' (1 + y_start) = 1%R
        /\ ix fg' (1 + psi_start) = 0%R
        /\ ix fg' (1 + v_start) = speed_limit example_mps_to_mph
        /\ ix fg' (1 + cte_start) = 0%R /\ ix fg' (1 + epsi_start) = 0%R)
    /\ (forall t, 1 <= t < solver_N ->
          ix fg' (1 + x_start + t) = 0%R
          /\ ix fg' (1 + y_start + t) = 0%R
          /\ ix fg' (1 + psi_start + t) = 0%R
          /\ ix fg' (1 + v_start + t) = 0%R
          /\ ix fg' (1 + cte_start + t) = 0%R
          /\ ix fg' (1 + epsi_start + t) = 0%R)
    /\ (forall vars2 fg2 fg2',
          size vars2 = n_vars ->
          size fg2 = 1 + n_constraints ->
          FG_eval example_mps_to_mph [1%R; 0%R] fg2 vars2 = Ok fg2' ->
          (ix fg' 0 <= ix fg2' 0)%R).
Proof.
  apply (straight_line_is_optimal example_mps_to_mph 0 1 example_fg).
  - unfold example_mps_to_mph. lra.
  - reflexivity.
Defined.

(** ** More on the vectors built by Solve (lines 215-258) *)

Lemma segment_cover (i : Z) :
  0 <= i < n_vars -> exists s, in_segment s i.
Proof.
  rewrite n_vars_val. intros Hi.
  assert (C : i < 12 \/ 12 <= i < 24 \/ 24 <= i < 36 \/ 36 <= i < 48
              \/ 48 <= i < 60 \/ 60 <= i < 72 \/ 72 <= i < 83 \/ 83 <= i)
    by lia.
  destruct C as [C|[C|[C|[C|[C|[C|[C|C]]]]]]];
    [exists Seg_x | exists Seg_y | exists Seg_psi | exists Seg_v
     | exists Seg_cte | exists Seg_epsi | exists Seg_delta | exists Seg_a];
    unfold in_segment; cbn [seg_start seg_len]; layout; lia.
Qed.

Lemma seg_limit_pos (mps_to_mph : R) (s : segment) :
  (0 < mps_to_mph)%R -> (0 < seg_limit mps_to_mph s)%R.
Proof.
  intros Hm. pose proof (speed_limit_pos _ Hm).
  pose proof max_delta_pos. pose proof max_acc_pos.
  destruct s; cbn [seg_limit]; unfold no_limit; try assumption; lra.
Qed.

(** X9: the box that [Solve] hands to the solver is symmetric about zero and
    has room inside: at every index of the decision vector the lower bound
    is the negated upper bound and lies strictly below it, so that zero, the
    initial guess of every entry but the six of the initial state, is
    strictly inside. *)
Theorem variable_box_is_symmetric
    (mps_to_mph : R) (uninit : vec_name -> nat -> R) :
  (0 < mps_to_mph)%R ->
  exists lo up,
    Solve_vars_bounds mps_to_mph uninit = Ok (lo, up)
    /\ forall i, 0 <= i < n_vars ->
         ix lo i = (- ix up i)%R
         /\ (ix lo i < 0 < ix up i)%R.
Proof.
  intros Hm.
  destruct (Solve_vars_bounds_ok mps_to_mph uninit)
    as (lo & up & Hb & _ & _ & Hseg).
  exists lo, up. split; [exact Hb|].
  intros i Hi. destruct (segment_cover i Hi) as (s & Hs).
  destruct (Hseg s i Hs) as [-> ->].
  pose proof (seg_limit_pos mps_to_mph s Hm).
  split; [reflexivity | lra].
Qed.

Lemma variable_box_is_symmetric_witness :
  exists lo up,
    Solve_vars_bounds example_mps_to_mph example_uninit = Ok (lo, up)
    /\ forall i, 0 <= i < n_vars ->
         ix lo i = (- ix up i)%R
         /\ (ix lo i < 0 < ix up i)%R.
Proof.
  apply (variable_box_is_symmetric example_mps_to_mph example_uninit).
  unfold example_mps_to_mph. lra.
Defined.

Lemma Solve_vars_bounds_ignores_uninit
    (mps_to_mph : R) (u1 u2 : vec_name -> nat -> R) :
  Solve_vars_bounds mps_to_mph u1 = Solve_vars_bounds mps_to_mph u2.
Proof.
  destruct (Solve_vars_bounds_ok mps_to_mph u1)
    as (lo1 & up1 & H1 & Sl1 & Su1 & P1).
  destruct (Solve_vars_bounds_ok mps_to_mph u2)
    as (lo2 & up2 & H2 & Sl2 & Su2 & P2).
  rewrite H1, H2. apply f_equal. f_equal.
  - apply vec_ext; [congruence|]. intros j Hj. rewrite Sl1 in Hj.
    destruct (segment_cover j Hj) as (s & Hs).
    destruct (P1 s j Hs) as [-> _]. destruct (P2 s j Hs) as [-> _].
    reflexivity.
  - apply vec_ext; [congruence|]. intros j Hj. rewrite Su1 in Hj.
    destruct (segment_cover j Hj) as (s & Hs).
    destruct (P1 s j Hs) as [_ ->]. destruct (P2 s j Hs) as [_ ->].
    reflexivity.
Qed.

Lemma Solve_vars_ignores_uninit (u1 u2 : vec_name -> nat -> R) :
  Solve_vars u1 = Solve_vars u2.
Proof.
  destruct (Solve_vars_ok u1) as (v1 & H1 & S1 & P1).
  destruct (Solve_vars_ok u2) as (v2 & H2 & S2 & P2).
  rewrite H1, H2. apply f_equal.
  apply vec_ext; [congruence|]. intros j Hj. rewrite S1 in Hj.
  rewrite P1, P2 by assumption. reflexivity.
Qed.

Lemma Solve_constraints_bounds_ignores_uninit
    (u1 u2 : vec_name -> nat -> R) :
  Solve_constraints_bounds u1 = Solve_constraints_bounds u2.
Proof.
  destruct (Solve_constraints_bounds_ok u1) as (lo1 & up1 & H1 & Sl1 & Su1 & P1).
  destruct (Solve_constraints_bounds_ok u2) as (lo2 & up2 & H2 & Sl2 & Su2 & P2).
  rewrite H1, H2. apply f_equal. f_equal.
  - apply vec_ext; [congruence|]. intros j Hj. rewrite Sl1 in Hj.
    destruct (P1 j Hj) as [-> _]. destruct (P2 j Hj) as [-> _]. reflexivity.
  - apply vec_ext; [congruence|]. intros j Hj. rewrite Su1 in Hj.
    destruct (P1 j Hj) as [_ ->]. destruct (P2 j Hj) as [_ ->]. reflexivity.
Qed.

(** X10: [Solve] writes every entry of the five vectors it allocates before
    the solver sees them: the problem handed to the solver, and so what
    [Solve] returns, is the same whatever the fresh vectors held. *)
Theorem Solve_ignores_fresh_memory
    (mps_to_mph : R) (status_type : Type) (success : status_type)
    (status_eq_dec : forall a b : status_type, {a = b} + {a <> b})
    (ipopt_solve : ipopt_problem -> solve_result status_type)
    (u1 u2 : vec_name -> nat -> R) (init_state coeffs : list R) (w : world) :
  Solve_problem mps_to_mph u1 init_state coeffs
  = Solve_problem mps_to_mph u2 init_state coeffs
  /\ Solve mps_to_mph status_type success status_eq_dec ipopt_solve u1
       init_state coeffs w
     = Solve mps_to_mph status_type success status_eq_dec ipopt_solve u2
         init_state coeffs w.
Proof.
  assert (E : Solve_problem mps_to_mph u1 init_state coeffs
              = Solve_problem mps_to_mph u2 init_state coeffs).
  { unfold Solve_problem.
    rewrite (Solve_vars_ignores_uninit u1 u2).
    rewrite (Solve_vars_bounds_ignores_uninit mps_to_mph u1 u2).
    rewrite (Solve_constraints_bounds_ignores_uninit u1 u2).
    reflexivity. }
  split; [exact E|]. unfold Solve. rewrite E. reflexivity.
Qed.

(** The initial guess and the variable bounds that [Solve] hands to the
    solver. *)
Lemma Solve_problem_guess
    (mps_to_mph : R) (uninit : vec_name -> nat -> R)
    (init_state coeffs : list R) :
  6 <= size init_state ->
  exists p,
    Solve_problem mps_to_mph uninit init_state coeffs = Ok p
    /\ fg_eval p = FG_eval mps_to_mph coeffs
    /\ size (xi p) = n_vars
    /\ (forall k i, head_of k i -> ix (xi p) i = ix init_state k)
    /\ (forall i, 0 <= i < n_vars -> ~ is_head i -> ix (xi p) i = 0%R)
    /\ (forall s i, in_segment s i ->
          ix (xl p) i = (- seg_limit mps_to_mph s)%R
          /\ ix (xu p) i = seg_limit mps_to_mph s).
Proof.
  intros Hi.
  destruct (Solve_problem_ok mps_to_mph uninit init_state coeffs Hi)
    as (p & lo & up & vars0 & lo0 & up0 & Hp & Hb & Hv & _ & ->).
  destruct (Solve_vars_ok uninit) as (vars0' & Hv' & Sv & Hz).
  assert (vars0' = vars0) by congruence. subst vars0'.
  destruct (Solve_vars_bounds_ok mps_to_mph uninit)
    as (lo' & up' & Hb' & _ & _ & Hseg).
  assert (E : (lo', up') = (lo, up)) by congruence.
  injection E as -> ->.
  eexists. split; [exact Hp|]. cbn [fg_eval xi xl xu].
  split; [reflexivity|].
  split; [rewrite size_with_initial_state; exact Sv|].
  split.
  - intros k i Hh. apply with_initial_state_head; [|exact Hh].
    rewrite Sv. layout. lia.
  - split; [|exact Hseg].
    intros i Hr Hn. rewrite with_initial_state_other by (lia || exact Hn).
    apply Hz. exact Hr.
Qed.

(** X11: the initial guess satisfies the six constraints of the initial
    state: evaluated at the guess that [Solve] hands to the solver, the
    residual at each head of a state segment equals the lower and the upper
    bound that [Solve] set for it, which is the entry of [init_state]. *)
Theorem initial_guess_satisfies_pins
    (mps_to_mph : R) (uninit : vec_name -> nat -> R)
    (init_state coeffs fg : list R) :
  6 <= size init_state ->
  2 <= size coeffs ->
  size fg = 1 + n_constraints ->
  exists p fg',
    Solve_problem mps_to_mph uninit init_state coeffs = Ok p
    /\ fg_eval p fg (xi p) = Ok fg'
    /\ forall k i, head_of k i ->
         ix fg' (1 + i) = ix init_state k
         /\ ix (gl p) i = ix fg' (1 + i)
         /\ ix (gu p) i = ix fg' (1 + i).
Proof.
  intros Hi Hc Hfg.
  destruct (Solve_problem_guess mps_to_mph uninit init_state coeffs Hi)
    as (p & Hp & Efg & Sxi & Hhead & _).
  destruct (Solve_problem_constraints mps_to_mph uninit init_state coeffs Hi)
    as (p' & Hp' & _ & _ & _ & Hbound & _).
  assert (p' = p) by congruence. subst p'.
  destruct (FG_eval_ok coeffs (xi p) Sxi Hc mps_to_mph fg Hfg)
    as (fg' & Hrun & _ & _ & Hpin & _).
  exists p, fg'. split; [exact Hp|]. split; [rewrite Efg; exact Hrun|].
  intros k i Hk.
  destruct (Hbound k i Hk) as [-> ->].
  assert (E : ix fg' (1 + i) = ix (xi p) i).
  { destruct Hpin as (P1 & P2 & P3 & P4 & P5 & P6).
    unfold head_of in Hk.
    destruct Hk as [[_ ->]|[[_ ->]|[[_ ->]|[[_ ->]|[[_ ->]|[_ ->]]]]]];
      assumption. }
  rewrite E, (Hhead k i Hk). repeat split; reflexivity.
Qed.

Lemma initial_guess_satisfies_pins_witness :
  exists p fg',
    Solve_problem example_mps_to_mph example_uninit example_init_state
      example_coeffs = Ok p
    /\ fg_eval p example_fg (xi p) = Ok fg'
    /\ forall k i, head_of k i ->
         ix fg' (1 + i) = ix example_init_state k
         /\ ix (gl p) i = ix fg' (1 + i)
         /\ ix (gu p) i = ix fg' (1 + i).
Proof.
  apply (initial_guess_satisfies_pins example_mps_to_mph example_uninit
           example_init_state example_coeffs example_fg).
  - unfold size. simpl. lia.
  - unfold size. simpl. lia.
  - reflexivity.
Defined.

(** X12: a vehicle faster than the speed limit makes the problem
    infeasible.  When the speed of [init_state] exceeds [speed_limit] in
    magnitude, no decision vector inside the variable bounds meets the
    constraint that pins the initial speed: the bound on the v segment and
    the pinned value exclude one another. *)
Theorem speeding_is_infeasible
    (mps_to_mph : R) (uninit : vec_name -> nat -> R)
    (init_state coeffs : list R) :
  6 <= size init_state ->
  2 <= size coeffs ->
  (speed_limit mps_to_mph < Rabs (ix init_state 3))%R ->
  exists p,
    Solve_problem mps_to_mph uninit init_state coeffs = Ok p
    /\ forall vars fg fg',
         size vars = n_vars ->
         size fg = 1 + n_constraints ->
         (forall i, 0 <= i < n_vars ->
            (ix (xl p) i <= ix vars i <= ix (xu p) i)%R) ->
         fg_eval p fg vars = Ok fg' ->
         ~ (ix (gl p) v_start <= ix fg' (1 + v_start)
            <= ix (gu p) v_start)%R.
Proof.
  intros Hi Hc Hfast.
  destruct (Solve_problem_guess mps_to_mph uninit init_state coeffs Hi)
    as (p & Hp & Efg & _ & _ & _ & Hseg).
  destruct (Solve_problem_constraints mps_to_mph uninit init_state coeffs Hi)
    as (p' & Hp' & _ & _ & _ & Hbound & _).
  assert (p' = p) by congruence. subst p'.
  exists p. split; [exact Hp|].
  intros vars fg fg' Hv Hfg Hbox Hrun.
  rewrite Efg in Hrun.
  destruct (FG_eval_ok coeffs vars Hv Hc mps_to_mph fg Hfg)
    as (fg2 & Hrun2 & _ & _ & Hpin & _).
  assert (fg2 = fg') by congruence. subst fg2.
  destruct Hpin as (_ & _ & _ & P4 & _). rewrite P4.
  assert (Hh : head_of 3 v_start) by (unfold head_of; tauto).
  destruct (Hbound 3 v_start Hh) as [-> ->].
  assert (Hs : in_segment Seg_v v_start)
    by (unfold in_segment; cbn [seg_start seg_len]; layout; lia).
  destruct (Hseg Seg_v v_start Hs) as [L U]. cbn [seg_limit] in L, U.
  specialize (Hbox v_start ltac:(layout; lia)).
  rewrite L, U in Hbox.
  intros [G1 G2].
  assert (E : ix vars v_start = ix init_state 3) by lra.
  rewrite <- E in Hfast.
  unfold Rabs in Hfast. destruct (Rcase_abs (ix vars v_start)); lra.
Qed.

Lemma speeding_is_infeasible_witness :
  exists p,
    Solve_problem example_mps_to_mph example_uninit [0; 0; 0; 40; 0; 0]%R
      example_coeffs = Ok p
    /\ forall vars fg fg',
         size vars = n_vars ->
         size fg = 1 + n_constraints ->
         (forall i, 0 <= i < n_vars ->
            (ix (xl p) i <= ix vars i <= ix (xu p) i)%R) ->
         fg_eval p fg vars = Ok fg' ->
         ~ (ix (gl p) v_start <= ix fg' (1 + v_start)
            <= ix (gu p) v_start)%R.
Proof.
  apply (speeding_is_infeasible example_mps_to_mph example_uninit
           [0; 0; 0; 40; 0; 0]%R example_coeffs).
  - unfold size. simpl. lia.
  - unfold size. simpl. lia.
  - change (ix [0; 0; 0; 40; 0; 0]%R 3) with 40%R.
    rewrite Rabs_pos_eq by lra.
    unfold speed_limit, example_mps_to_mph. lra.
Defined.

(** ** Faults of Solve (lines 253-258 and 295-303) *)

Lemma Solve_initial_state_short (init_state vars lo up : list R) :
  size init_state < 6 ->
  size vars = n_vars -> size lo = n_constraints -> size up = n_constraints ->
  Solve_initial_state init_state (vars, (lo, up))
  = Fault (OutOfRange V_init_state (size init_state)).
Proof.
  intros Hi Hv Hlo Hup. unfold Solve_initial_state.
  rewrite n_vars_val in Hv. rewrite n_constraints_val in Hlo, Hup.
  layout.
  assert (H0 : 0 <= size init_state) by (unfold size; lia).
  assert (C : size init_state = 0 \/ size init_state = 1
              \/ size init_state = 2 \/ size init_state = 3
              \/ size init_state = 4 \/ size init_state = 5) by lia.
  destruct C as [E|[E|[E|[E|[E|E]]]]]; rewrite E;
    repeat (rewrite set_initial_ok by (rewrite ?size_upd; lia);
            rewrite bind_Ok);
    unfold set_initial; rewrite vec_get_fault by lia; reflexivity.
Qed.

(** X13: [Solve] reads six entries of [init_state] without a check.  Given
    fewer, the first access outside a vector in a run of [Solve] is the read
    of [init_state] at the first index that is missing.  It comes at lines
    253-258, while the vectors of the problem are filled and before the line
    of the solver call.  What the program does after such a read the
    language leaves open, and nothing is said of it here. *)
Theorem Solve_short_init_state_faults
    (mps_to_mph : R) (status_type : Type) (success : status_type)
    (status_eq_dec : forall a b : status_type, {a = b} + {a <> b})
    (ipopt_solve : ipopt_problem -> solve_result status_type)
    (uninit : vec_name -> nat -> R) (init_state coeffs : list R) (w : world) :
  size init_state < 6 ->
  Solve_problem mps_to_mph uninit init_state coeffs
  = Fault (OutOfRange V_init_state (size init_state))
  /\ Solve mps_to_mph status_type success status_eq_dec ipopt_solve uninit
       init_state coeffs w
     = Fault (OutOfRange V_init_state (size init_state)).
Proof.
  intros Hi.
  assert (E : Solve_problem mps_to_mph uninit init_state coeffs
              = Fault (OutOfRange V_init_state (size init_state))).
  { unfold Solve_problem.
    destruct (Solve_vars_ok uninit) as (vars0 & Hv & Sv & _).
    destruct (Solve_vars_bounds_ok mps_to_mph uninit) as (lo & up & Hb & _).
    destruct (Solve_constraints_bounds_ok uninit)
      as (lo0 & up0 & Hc & Sl & Su & _).
    rewrite Hv, bind_Ok, Hb, bind_Ok, Hc, bind_Ok.
    rewrite (Solve_initial_state_short init_state vars0 lo0 up0 Hi Sv Sl Su).
    reflexivity. }
  split; [exact E|]. unfold Solve. rewrite E. reflexivity.
Qed.

Lemma Solve_short_init_state_faults_witness :
  Solve_problem example_mps_to_mph example_uninit [0; 1; 0]%R example_coeffs
  = Fault (OutOfRange V_init_state (size [0; 1; 0]%R))
  /\ Solve example_mps_to_mph bool true Bool.bool_dec example_solver
       example_uninit [0; 1; 0]%R example_coeffs example_world
     = Fault (OutOfRange V_init_state (size [0; 1; 0]%R)).
Proof.
  apply (Solve_short_init_state_faults example_mps_to_mph bool true
           Bool.bool_dec example_solver example_uninit [0; 1; 0]%R
           example_coeffs example_world).
  reflexivity.
Defined.

Lemma Solve_trajectory_two_segments (sol : list R) :
  y_start + solver_N <= size sol ->
  Solve_trajectory sol
  = Ok (slice sol x_start solver_N, slice sol y_start solver_N).
Proof.
  layout. intros Hsol. unfold Solve_trajectory. cbv zeta.
  set (body := fun (i : Z) (s : list R * list R) => _).
  set (I := fun (k : Z) (s : list R * list R) =>
              size (fst s) = solver_N /\ size (snd s) = solver_N
              /\ (forall j, 0 <= j < k ->
                    ix (fst s) j = ix sol (x_start + j)
                    /\ ix (snd s) j = ix sol (y_start + j))).
  destruct (for_range_inv I body 0 solver_N
              (repeat 0%R (Z.to_nat solver_N), repeat 0%R (Z.to_nat solver_N)))
    as ([sx sy] & Hrun & S1 & S2 & Hall).
  - rewrite solver_N_val. lia.
  - unfold I. cbn [fst snd]. repeat split; intros; lia.
  - intros t [sx sy] Ht (S1 & S2 & Hall). cbn [fst snd] in *.
    exists (upd sx t (ix sol (x_start + t)), upd sy t (ix sol (y_start + t))).
    rewrite solver_N_val in *.
    split.
    + unfold body. cbn [fst snd]. layout.
      rewrite vec_get_ok, bind_Ok by lia.
      rewrite vec_set_ok, bind_Ok by lia.
      rewrite vec_get_ok, bind_Ok by lia.
      rewrite vec_set_ok, bind_Ok by lia.
      reflexivity.
    + unfold I. cbn [fst snd]. rewrite !size_upd, solver_N_val.
      split; [exact S1|]. split; [exact S2|].
      intros j Hj. destruct (Z.eq_dec j t) as [->|Hne].
      * rewrite !ix_upd_eq by lia. split; reflexivity.
      * rewrite !ix_upd_ne by lia. apply Hall. lia.
  - rewrite Hrun. cbn [fst snd] in *. rewrite solver_N_val in *.
    apply f_equal. f_equal.
    + apply vec_ext.
      * rewrite size_slice by (layout; lia). exact S1.
      * intros j Hj. rewrite ix_slice by (layout; lia). apply Hall. lia.
    + apply vec_ext.
      * rewrite size_slice by (layout; lia). exact S2.
      * intros j Hj. rewrite ix_slice by (layout; lia). apply Hall. lia.
Qed.

(** X14: of the solution vector [Solve] reads the x and y segments and the
    heads of the delta and a segments, nothing beyond index [a_start].  A
    solution with more than [a_start] entries is extracted; a shorter one
    makes the read of [solution.x[delta_start]] or, if that is inside, of
    [solution.x[a_start]] run outside the vector. *)
Theorem extraction_reads_up_to_a_start (sol : list R) :
  (a_start < size sol -> Solve_extract sol = Ok (extraction sol))
  /\ (size sol <= delta_start ->
      Solve_extract sol = Fault (OutOfRange V_solution delta_start))
  /\ (delta_start < size sol <= a_start ->
      Solve_extract sol = Fault (OutOfRange V_solution a_start)).
Proof.
  unfold Solve_extract, extraction. layout.
  split; [|split]; intros H.
  - rewrite !vec_get_ok, !bind_Ok by lia.
    rewrite Solve_trajectory_two_segments by (layout; lia).
    reflexivity.
  - rewrite vec_get_fault by lia. reflexivity.
  - rewrite vec_get_ok, bind_Ok by lia.
    rewrite vec_get_fault by lia. reflexivity.
Qed.

(** ** Left and right (lines 72-147) *)

Lemma size_mirror_vars (vars : list R) : size (mirror_vars vars) = size vars.
Proof. unfold mirror_vars. apply size_vec_of. Qed.

Lemma ix_mirror_vars_kept (vars : list R) (i : Z) :
  size vars = n_vars ->
  (0 <= i < y_start \/ v_start <= i < cte_start \/ a_start <= i < n_vars) ->
  ix (mirror_vars vars) i = ix vars i.
Proof.
  layout. intros Hv Hi. unfold mirror_vars.
  rewrite ix_vec_of by (fold (size vars); lia). layout.
  destruct (Z.leb_spec 12 i), (Z.ltb_spec i 36), (Z.leb_spec 48 i),
    (Z.ltb_spec i 83); cbn [andb orb]; try reflexivity; lia.
Qed.

Lemma ix_mirror_vars_negated (vars : list R) (i : Z) :
  size vars = n_vars ->
  (y_start <= i < v_start \/ cte_start <= i < a_start) ->
  ix (mirror_vars vars) i = (- ix vars i)%R.
Proof.
  layout. intros Hv Hi. unfold mirror_vars.
  rewrite ix_vec_of by (fold (size vars); lia). layout.
  destruct (Z.leb_spec 12 i), (Z.ltb_spec i 36), (Z.leb_spec 48 i),
    (Z.ltb_spec i 83); cbn [andb orb]; try reflexivity; lia.
Qed.

Lemma ix_mirror_coeffs (coeffs : list R) (j : Z) :
  ix (mirror_coeffs coeffs) j = (- ix coeffs j)%R.
Proof.
  unfold ix, mirror_coeffs.
  rewrite <- (map_nth Ropp coeffs 0%R). rewrite Ropp_0. reflexivity.
Qed.

Lemma poly_from_mirror (x : R) :
  forall (cs : list R) (i : nat),
    poly_from (mirror_coeffs cs) i x = (- poly_from cs i x)%R.
Proof.
  induction cs as [|c cs IH]; intros i.
  - simpl. ring.
  - simpl. unfold mirror_coeffs in IH. rewrite IH. ring.
Qed.

Lemma predict_mirror (coeffs : list R) (s : state) (u : actuation) :
  predict (mirror_coeffs coeffs) (mirror_state s) (mirror_actuation u)
  = mirror_state (predict coeffs s u).
Proof.
  unfold predict, mirror_state, mirror_actuation.
  cbn [st_x st_y st_psi st_v st_cte st_epsi act_delta act_a].
  rewrite ix_mirror_coeffs, atan_opp, cos_neg, !sin_neg.
  unfold P. rewrite poly_from_mirror.
  apply state_fields_eq;
    cbn [st_x st_y st_psi st_v st_cte st_epsi]; unfold Rdiv; ring.
Qed.

Section Mirror.

Variable vars : list R.
Hypothesis vars_size : size vars = n_vars.

Lemma state_at_mirror (t : Z) :
  0 <= t < solver_N ->
  state_at (mirror_vars vars) t = mirror_state (state_at vars t).
Proof.
  rewrite solver_N_val. intros Ht. unfold state_at, mirror_state.
  cbn [st_x st_y st_psi st_v st_cte st_epsi].
  rewrite (ix_mirror_vars_kept vars (x_start + t)),
    (ix_mirror_vars_negated vars (y_start + t)),
    (ix_mirror_vars_negated vars (psi_start + t)),
    (ix_mirror_vars_kept vars (v_start + t)),
    (ix_mirror_vars_negated vars (cte_start + t)),
    (ix_mirror_vars_negated vars (epsi_start + t))
    by first [assumption | layout; lia].
  reflexivity.
Qed.

Lemma actuation_at_mirror (t : Z) :
  0 <= t < solver_N - 1 ->
  actuation_at (mirror_vars vars) t = mirror_actuation (actuation_at vars t).
Proof.
  rewrite solver_N_val. intros Ht. unfold actuation_at, mirror_actuation.
  cbn [act_delta act_a].
  rewrite (ix_mirror_vars_negated vars (delta_start + t)),
    (ix_mirror_vars_kept vars (a_start + t))
    by first [assumption | layout; lia].
  reflexivity.
Qed.

Lemma cost_mirror (mps_to_mph : R) :
  cost mps_to_mph (mirror_vars vars) = cost mps_to_mph vars.
Proof.
  unfold cost. rewrite solver_N_val.
  rewrite (sum_from_ext (state_term mps_to_mph (mirror_vars vars))
             (state_term mps_to_mph vars)).
  2:{ intros t Ht. unfold state_term.
      rewrite (ix_mirror_vars_negated vars (cte_start + t)),
        (ix_mirror_vars_negated vars (epsi_start + t)),
        (ix_mirror_vars_kept vars (v_start + t))
        by first [assumption | layout; lia].
      unfold Rdiv. ring. }
  rewrite (sum_from_ext (actuator_term (mirror_vars vars))
             (actuator_term vars)).
  2:{ intros t Ht. unfold actuator_term.
      rewrite (ix_mirror_vars_negated vars (delta_start + t)),
        (ix_mirror_vars_kept vars (a_start + t))
        by first [assumption | layout; lia].
      unfold Rdiv. ring. }
  rewrite (sum_from_ext (rate_term (mirror_vars vars)) (rate_term vars)).
  2:{ intros t Ht. unfold rate_term.
      rewrite (ix_mirror_vars_negated vars (delta_start + t + 1)),
        (ix_mirror_vars_negated vars (delta_start + t)),
        (ix_mirror_vars_kept vars (a_start + t + 1)),
        (ix_mirror_vars_kept vars (a_start + t))
        by first [assumption | layout; lia].
      unfold Rdiv. ring. }
  reflexivity.
Qed.

End Mirror.

(** X15: the problem has no bias to the left or to the right.  Mirror the
    reference path ([- coeffs]) and the decision vector ([y], [psi], [cte],
    [epsi] and [delta] negated): the cost stays the same, the x and v
    entries of the constraint vector stay the same, and its y, psi, cte and
    epsi entries change sign, at the initial step and at every future
    step. *)
Theorem mirror_symmetry (mps_to_mph : R) (coeffs fg vars : list R) :
  2 <= size coeffs ->
  size vars = n_vars ->
  size fg = 1 + n_constraints ->
  exists fg' fgm,
    FG_eval mps_to_mph coeffs fg vars = Ok fg'
    /\ FG_eval mps_to_mph (mirror_coeffs coeffs) fg (mirror_vars vars)
       = Ok fgm
    /\ ix fgm 0 = ix fg' 0
    /\ forall t, 0 <= t < solver_N ->
         ix fgm (1 + x_start + t) = ix fg' (1 + x_start + t)
         /\ ix fgm (1 + y_start + t) = (- ix fg' (1 + y_start + t))%R
         /\ ix fgm (1 + psi_start + t) = (- ix fg' (1 + psi_start + t))%R
         /\ ix fgm (1 + v_start + t) = ix fg' (1 + v_start + t)
         /\ ix fgm (1 + cte_start + t) = (- ix fg' (1 + cte_start + t))%R
         /\ ix fgm (1 + epsi_start + t) = (- ix fg' (1 + epsi_start + t))%R.
Proof.
  intros Hc Hv Hfg.
  assert (Hcm : 2 <= size (mirror_coeffs coeffs))
    by (unfold size, mirror_coeffs in *; rewrite length_map; exact Hc).
  assert (Hvm : size (mirror_vars vars) = n_vars)
    by (rewrite size_mirror_vars; exact Hv).
  destruct (FG_eval_ok coeffs vars Hv Hc mps_to_mph fg Hfg)
    as (a & Ra & _ & Ca & Pa & Fa).
  destruct (FG_eval_ok (mirror_coeffs coeffs) (mirror_vars vars) Hvm Hcm
              mps_to_mph fg Hfg)
    as (b & Rb & _ & Cb & Pb & Fb).
  exists a, b. split; [exact Ra|]. split; [exact Rb|].
  split; [rewrite Ca, Cb; apply cost_mirror; exact Hv|].
  intros t Ht.
  destruct (FG_eval_step_entries coeffs vars a t Pa Fa Ht) as [[-> Qa]|[T Qa]];
    destruct (FG_eval_step_entries _ _ b _ Pb Fb Ht) as [[E Qb]|[T' Qb]];
    try lia.
  - destruct Qa as (A1 & A2 & A3 & A4 & A5 & A6).
    destruct Qb as (B1 & B2 & B3 & B4 & B5 & B6).
    change (1 + x_start + 0) with (1 + x_start).
    change (1 + y_start + 0) with (1 + y_start).
    change (1 + psi_start + 0) with (1 + psi_start).
    change (1 + v_start + 0) with (1 + v_start).
    change (1 + cte_start + 0) with (1 + cte_start).
    change (1 + epsi_start + 0) with (1 + epsi_start).
    rewrite A1, A2, A3, A4, A5, A6, B1, B2, B3, B4, B5, B6.
    rewrite (ix_mirror_vars_kept vars x_start),
      (ix_mirror_vars_negated vars y_start),
      (ix_mirror_vars_negated vars psi_start),
      (ix_mirror_vars_kept vars v_start),
      (ix_mirror_vars_negated vars cte_start),
      (ix_mirror_vars_negated vars epsi_start)
      by first [assumption | layout; lia].
    repeat split; reflexivity.
  - unfold residuals_at in Qa, Qb. cbv zeta in Qa, Qb.
    rewrite !state_at_mirror, actuation_at_mirror, predict_mirror in Qb
      by first [assumption | lia].
    unfold mirror_state in Qb.
    cbn [st_x st_y st_psi st_v st_cte st_epsi] in Qb.
    destruct Qa as (A1 & A2 & A3 & A4 & A5 & A6).
    destruct Qb as (B1 & B2 & B3 & B4 & B5 & B6).
    rewrite A1, A2, A3, A4, A5, A6, B1, B2, B3, B4, B5, B6.
    repeat split; ring.
Qed.

Lemma mirror_symmetry_witness :
  exists fg' fgm,
    FG_eval example_mps_to_mph example_coeffs example_fg example_vars_y1
    = Ok fg'
    /\ FG_eval example_mps_to_mph (mirror_coeffs example_coeffs) example_fg
         (mirror_vars example_vars_y1) = Ok fgm
    /\ ix fgm 0 = ix fg' 0
    /\ forall t, 0 <= t < solver_N ->
         ix fgm (1 + x_start + t) = ix fg' (1 + x_start + t)
         /\ ix fgm (1 + y_start + t) = (- ix fg' (1 + y_start + t))%R
         /\ ix fgm (1 + psi_start + t) = (- ix fg' (1 + psi_start + t))%R
         /\ ix fgm (1 + v_start + t) = ix fg' (1 + v_start + t)
         /\ ix fgm (1 + cte_start + t) = (- ix fg' (1 + cte_start + t))%R
         /\ ix fgm (1 + epsi_start + t) = (- ix fg' (1 + epsi_start + t))%R.
Proof.
  apply (mirror_symmetry example_mps_to_mph example_coeffs example_fg
           example_vars_y1).
  - unfold size. simpl. lia.
  - reflexivity.
  - reflexivity.
Defined.

(** ** Which variables a constraint reads (lines 109-146) *)

(** X16: the constraints are banded.  Every residual of step [t] reads only
    variables of the steps [t] and [t - 1]: when one entry of the decision
    vector, the one of some segment at step [s], is changed, the six entries
    of the constraint vector stay as they were at every step other than [s]
    and [s + 1]. *)
Theorem constraints_are_banded
    (mps_to_mph : R) (coeffs fg vars : list R) (seg : segment) (s : Z) (r : R) :
  2 <= size coeffs ->
  size vars = n_vars ->
  size fg = 1 + n_constraints ->
  0 <= s < seg_len seg ->
  exists fg' fg'',
    FG_eval mps_to_mph coeffs fg vars = Ok fg'
    /\ FG_eval mps_to_mph coeffs fg (upd vars (seg_start seg + s) r) = Ok fg''
    /\ forall t, 0 <= t < solver_N -> t <> s -> t <> s + 1 ->
         ix fg'' (1 + x_start + t) = ix fg' (1 + x_start + t)
         /\ ix fg'' (1 + y_start + t) = ix fg' (1 + y_start + t)
         /\ ix fg'' (1 + psi_start + t) = ix fg' (1 + psi_start + t)
         /\ ix fg'' (1 + v_start + t) = ix fg' (1 + v_start + t)
         /\ ix fg'' (1 + cte_start + t) = ix fg' (1 + cte_start + t)
         /\ ix fg'' (1 + epsi_start + t) = ix fg' (1 + epsi_start + t).
Proof.
  intros Hc Hv Hfg Hs.
  assert (Hv' : size (upd vars (seg_start seg + s) r) = n_vars)
    by (rewrite size_upd; exact Hv).
  destruct (FG_eval_ok coeffs vars Hv Hc mps_to_mph fg Hfg)
    as (a & Ra & _ & _ & Pa & Fa).
  destruct (FG_eval_ok coeffs _ Hv' Hc mps_to_mph fg Hfg)
    as (b & Rb & _ & _ & Pb & Fb).
  exists a, b. split; [exact Ra|]. split; [exact Rb|].
  intros t Ht Hts Hts1.
  destruct (FG_eval_step_entries coeffs vars a t Pa Fa Ht) as [[-> Qa]|[T Qa]];
    destruct (FG_eval_step_entries _ _ b _ Pb Fb Ht) as [[E Qb]|[T' Qb]];
    try lia.
  - destruct Qa as (A1 & A2 & A3 & A4 & A5 & A6).
    destruct Qb as (B1 & B2 & B3 & B4 & B5 & B6).
    change (1 + x_start + 0) with (1 + x_start).
    change (1 + y_start + 0) with (1 + y_start).
    change (1 + psi_start + 0) with (1 + psi_start).
    change (1 + v_start + 0) with (1 + v_start).
    change (1 + cte_start + 0) with (1 + cte_start).
    change (1 + epsi_start + 0) with (1 + epsi_start).
    rewrite A1, A2, A3, A4, A5, A6, B1, B2, B3, B4, B5, B6.
    revert Hs. destruct seg; cbn [seg_start seg_len]; layout; intros Hs;
      rewrite !ix_upd_ne by lia; repeat split; reflexivity.
  - unfold residuals_at, predict, state_at, actuation_at in Qa, Qb.
    cbn [st_x st_y st_psi st_v st_cte st_epsi act_delta act_a] in Qa, Qb.
    destruct Qa as (A1 & A2 & A3 & A4 & A5 & A6).
    destruct Qb as (B1 & B2 & B3 & B4 & B5 & B6).
    rewrite A1, A2, A3, A4, A5, A6, B1, B2, B3, B4, B5, B6.
    revert Hs Ht. destruct seg; cbn [seg_start seg_len]; layout; intros Hs Ht;
      rewrite !ix_upd_ne by lia; repeat split; reflexivity.
Qed.

Lemma constraints_are_banded_witness :
  exists fg' fg'',
    FG_eval example_mps_to_mph example_coeffs example_fg example_vars = Ok fg'
    /\ FG_eval example_mps_to_mph example_coeffs example_fg
         (upd example_vars (seg_start Seg_psi + 4) 1) = Ok fg''
    /\ forall t, 0 <= t < solver_N -> t <> 4 -> t <> 4 + 1 ->
         ix fg'' (1 + x_start + t) = ix fg' (1 + x_start + t)
         /\ ix fg'' (1 + y_start + t) = ix fg' (1 + y_start + t)
         /\ ix fg'' (1 + psi_start + t) = ix fg' (1 + psi_start + t)
         /\ ix fg'' (1 + v_start + t) = ix fg' (1 + v_start + t)
         /\ ix fg'' (1 + cte_start + t) = ix fg' (1 + cte_start + t)
         /\ ix fg'' (1 + epsi_start + t) = ix fg' (1 + epsi_start + t).
Proof.
  apply (constraints_are_banded example_mps_to_mph example_coeffs example_fg
           example_vars Seg_psi 4 1).
  - unfold size. simpl. lia.
  - reflexivity.
  - reflexivity.
  - cbn [seg_len]. rewrite solver_N_val. lia.
Defined.

(** X17: the cross-track error of a step enters the constraints once.  The
    model does not read the cte of the step before (line 129): when the cte
    variable of step [s] is changed, the only entry of the constraint vector
    that can change is the cte residual of step [s] itself. *)
Theorem cte_enters_one_constraint
    (mps_to_mph : R) (coeffs fg vars : list R) (s : Z) (r : R) :
  2 <= size coeffs ->
  size vars = n_vars ->
  size fg = 1 + n_constraints ->
  0 <= s < solver_N ->
  exists fg' fg'',
    FG_eval mps_to_mph coeffs fg vars = Ok fg'
    /\ FG_eval mps_to_mph coeffs fg (upd vars (cte_start + s) r) = Ok fg''
    /\ forall t, 0 <= t < solver_N ->
         ix fg'' (1 + x_start + t) = ix fg' (1 + x_start + t)
         /\ ix fg'' (1 + y_start + t) = ix fg' (1 + y_start + t)
         /\ ix fg'' (1 + psi_start + t) = ix fg' (1 + psi_start + t)
         /\ ix fg'' (1 + v_start + t) = ix fg' (1 + v_start + t)
         /\ (t <> s ->
             ix fg'' (1 + cte_start + t) = ix fg' (1 + cte_start + t))
         /\ ix fg'' (1 + epsi_start + t) = ix fg' (1 + epsi_start + t).
Proof.
  intros Hc Hv Hfg Hs.
  assert (Hv' : size (upd vars (cte_start + s) r) = n_vars)
    by (rewrite size_upd; exact Hv).
  destruct (FG_eval_ok coeffs vars Hv Hc mps_to_mph fg Hfg)
    as (a & Ra & _ & _ & Pa & Fa).
  destruct (FG_eval_ok coeffs _ Hv' Hc mps_to_mph fg Hfg)
    as (b & Rb & _ & _ & Pb & Fb).
  exists a, b. split; [exact Ra|]. split; [exact Rb|].
  intros t Ht.
  destruct (FG_eval_step_entries coeffs vars a t Pa Fa Ht) as [[-> Qa]|[T Qa]];
    destruct (FG_eval_step_entries _ _ b _ Pb Fb Ht) as [[E Qb]|[T' Qb]];
    try lia.
  - destruct Qa as (A1 & A2 & A3 & A4 & A5 & A6).
    destruct Qb as (B1 & B2 & B3 & B4 & B5 & B6).
    change (1 + x_start + 0) with (1 + x_start).
    change (1 + y_start + 0) with (1 + y_start).
    change (1 + psi_start + 0) with (1 + psi_start).
    change (1 + v_start + 0) with (1 + v_start).
    change (1 + cte_start + 0) with (1 + cte_start).
    change (1 + epsi_start + 0) with (1 + epsi_start).
    rewrite A1, A2, A3, A4, A5, A6, B1, B2, B3, B4, B5, B6.
    revert Hs. layout. intros Hs.
    rewrite !(ix_upd_ne vars (48 + s) 0), !(ix_upd_ne vars (48 + s) 12),
      !(ix_upd_ne vars (48 + s) 24), !(ix_upd_ne vars (48 + s) 36),
      !(ix_upd_ne vars (48 + s) 60) by lia.
    repeat split; try reflexivity.
    intros Hne. rewrite ix_upd_ne by lia. reflexivity.
  - unfold residuals_at, predict, state_at, actuation_at in Qa, Qb.
    cbn [st_x st_y st_psi st_v st_cte st_epsi act_delta act_a] in Qa, Qb.
    destruct Qa as (A1 & A2 & A3 & A4 & A5 & A6).
    destruct Qb as (B1 & B2 & B3 & B4 & B5 & B6).
    rewrite A1, A2, A3, A4, A5, A6, B1, B2, B3, B4, B5, B6.
    revert Hs Ht. layout. intros Hs Ht.
    rewrite !(ix_upd_ne vars (48 + s) (0 + _)),
      !(ix_upd_ne vars (48 + s) (12 + _)),
      !(ix_upd_ne vars (48 + s) (24 + _)),
      !(ix_upd_ne vars (48 + s) (36 + _)),
      !(ix_upd_ne vars (48 + s) (60 + _)),
      !(ix_upd_ne vars (48 + s) (72 + _)),
      !(ix_upd_ne vars (48 + s) (83 + _)) by lia.
    repeat split; try reflexivity.
    intros Hne. rewrite ix_upd_ne by lia. reflexivity.
Qed.

Lemma cte_enters_one_constraint_witness :
  exists fg' fg'',
    FG_eval example_mps_to_mph example_coeffs example_fg example_vars = Ok fg'
    /\ FG_eval example_mps_to_mph example_coeffs example_fg
         (upd example_vars (cte_start + 3) 2) = Ok fg''
    /\ forall t, 0 <= t < solver_N ->
         ix fg'' (1 + x_start + t) = ix fg' (1 + x_start + t)
         /\ ix fg'' (1 + y_start + t) = ix fg' (1 + y_start + t)
         /\ ix fg'' (1 + psi_start + t) = ix fg' (1 + psi_start + t)
         /\ ix fg'' (1 + v_start + t) = ix fg' (1 + v_start + t)
         /\ (t <> 3 ->
             ix fg'' (1 + cte_start + t) = ix fg' (1 + cte_start + t))
         /\ ix fg'' (1 + epsi_start + t) = ix fg' (1 + epsi_start + t).
Proof.
  apply (cte_enters_one_constraint example_mps_to_mph example_coeffs
           example_fg example_vars 3 2).
  - unfold size. simpl. lia.
  - reflexivity.
  - reflexivity.
  - rewrite solver_N_val. lia.
Defined.

(** ** The initial guess and the box (lines 215-258) *)

Lemma Rabs_le_inv (a b : R) : (Rabs a <= b)%R -> (- b <= a <= b)%R.
Proof. unfold Rabs. destruct (Rcase_abs a); lra. Qed.

(** X18: the initial guess lies inside the variable bounds when the vehicle
    is not speeding: if the speed of [init_state] is at most [speed_limit] in
    magnitude, and its other entries at most 1.0e19, every entry of the guess
    that [Solve] hands to the solver is between its lower and its upper
    bound. *)
Theorem initial_guess_inside_box
    (mps_to_mph : R) (uninit : vec_name -> nat -> R)
    (init_state coeffs : list R) :
  (0 < mps_to_mph)%R ->
  6 <= size init_state ->
  (Rabs (ix init_state 3) <= speed_limit mps_to_mph)%R ->
  (forall k, 0 <= k < 6 -> k <> 3 -> (Rabs (ix init_state k) <= no_limit)%R) ->
  exists p,
    Solve_problem mps_to_mph uninit init_state coeffs = Ok p
    /\ forall i, 0 <= i < n_vars ->
         (ix (xl p) i <= ix (xi p) i <= ix (xu p) i)%R.
Proof.
  intros Hm Hi Hspeed Hrest.
  destruct (Solve_problem_guess mps_to_mph uninit init_state coeffs Hi)
    as (p & Hp & _ & _ & Hhead & Hzero & Hseg).
  exists p. split; [exact Hp|].
  intros i Hr. destruct (segment_cover i Hr) as (s & Hs).
  destruct (Hseg s i Hs) as [-> ->].
  destruct (is_head_dec i) as [(k & Hk)|Hn].
  - rewrite (Hhead k i Hk).
    apply Rabs_le_inv in Hspeed.
    pose proof (fun k H1 H2 => Rabs_le_inv _ _ (Hrest k H1 H2)) as Hrest'.
    unfold in_segment in Hs. unfold head_of in Hk.
    revert Hs Hk. layout. intros Hs Hk.
    destruct Hk as [[-> ->]|[[-> ->]|[[-> ->]|[[-> ->]|[[-> ->]|[-> ->]]]]]];
      destruct s; cbn [seg_start seg_len seg_limit] in Hs |- *;
      revert Hs; layout; intros Hs; try lia;
      first [exact Hspeed | apply Hrest'; lia].
  - rewrite (Hzero i Hr Hn).
    pose proof (seg_limit_pos mps_to_mph s Hm). lra.
Qed.

Lemma initial_guess_inside_box_witness :
  exists p,
    Solve_problem example_mps_to_mph example_uninit example_init_state
      example_coeffs = Ok p
    /\ forall i, 0 <= i < n_vars ->
         (ix (xl p) i <= ix (xi p) i <= ix (xu p) i)%R.
Proof.
  apply (initial_guess_inside_box example_mps_to_mph example_uninit
           example_init_state example_coeffs).
  - unfold example_mps_to_mph. lra.
  - unfold size. simpl. lia.
  - change (ix example_init_state 3) with 30%R.
    rewrite Rabs_pos_eq by lra.
    unfold speed_limit, example_mps_to_mph. lra.
  - intros k Hk Hne. apply Rabs_le. unfold no_limit.
    assert (C : k = 0 \/ k = 1 \/ k = 2 \/ k = 4 \/ k = 5) by lia.
    destruct C as [->|[->|[->|[->| ->]]]];
      [change (ix example_init_state 0) with 0%R
      |change (ix example_init_state 1) with 1%R
      |change (ix example_init_state 2) with 0%R
      |change (ix example_init_state 4) with 1%R
      |change (ix example_init_state 5) with 0%R]; lra.
Defined.

(** ** A path of fewer than two coefficients (lines 135-136, 261) *)

Lemma FG_eval_short_coeffs (mps_to_mph : R) (coeffs fg vars : list R) :
  size coeffs < 2 ->
  size vars = n_vars ->
  size fg = 1 + n_constraints ->
  FG_eval mps_to_mph coeffs fg vars = Fault (OutOfRange V_coeffs 1).
Proof.
  intros Hc Hv Hfg. unfold FG_eval.
  assert (Hpos : 0 < size fg) by (rewrite Hfg, n_constraints_val; lia).
  rewrite (FG_cost_ok mps_to_mph vars Hv fg Hpos), bind_Ok.
  destruct (FG_initial_ok vars Hv (upd fg 0 (cost mps_to_mph vars)))
    as (fg1 & H1 & _).
  { rewrite size_upd. exact Hfg. }
  rewrite H1, bind_Ok.
  unfold FG_future, for_range.
  change (Z.to_nat (solver_N - 1)) with 11%nat.
  rewrite for_count_S, (constraint_body_short_coeffs _ _ _ Hv Hc).
  reflexivity.
Qed.

(** X21: [Solve] does not look at the size of [coeffs].  Given a path of
    fewer than two coefficients it still builds the problem and calls the
    solver; the failure is left to the solver, whose every evaluation of the
    callback, on vectors of the sizes of the problem, reads [coeffs[1]]
    outside the vector. *)
Theorem Solve_defers_short_coeffs
    (mps_to_mph : R) (status_type : Type) (success : status_type)
    (status_eq_dec : forall a b : status_type, {a = b} + {a <> b})
    (ipopt_solve : ipopt_problem -> solve_result status_type)
    (uninit : vec_name -> nat -> R) (init_state coeffs : list R) (w : world) :
  6 <= size init_state ->
  size coeffs < 2 ->
  (forall p, size (x (ipopt_solve p)) = size (xi p)) ->
  exists p out w',
    Solve_problem mps_to_mph uninit init_state coeffs = Ok p
    /\ Solve mps_to_mph status_type success status_eq_dec ipopt_solve uninit
         init_state coeffs w = Ok (out, w')
    /\ ipopt_calls w' = ipopt_calls w ++ [p]
    /\ forall fg vars,
         size vars = size (xi p) ->
         size fg = 1 + size (gl p) ->
         fg_eval p fg vars = Fault (OutOfRange V_coeffs 1).
Proof.
  intros Hi Hc Hsol.
  destruct (Solve_ok mps_to_mph status_type success status_eq_dec ipopt_solve
              uninit init_state coeffs w Hi Hsol) as (p & Hp & Sxi & Hrun).
  destruct (Solve_problem_constraints mps_to_mph uninit init_state coeffs Hi)
    as (p' & Hp' & Efg & Sgl & _).
  assert (p' = p) by congruence. subst p'.
  exists p. do 2 eexists. split; [exact Hp|]. split; [exact Hrun|].
  split; [reflexivity|].
  intros fg vars Hv Hfg. rewrite Efg.
  apply FG_eval_short_coeffs; [exact Hc | congruence | congruence].
Qed.

Lemma Solve_defers_short_coeffs_witness :
  exists p out w',
    Solve_problem example_mps_to_mph example_uninit example_init_state [1%R]
    = Ok p
    /\ Solve example_mps_to_mph bool true Bool.bool_dec example_solver
         example_uninit example_init_state [1%R] example_world = Ok (out, w')
    /\ ipopt_calls w' = ipopt_calls example_world ++ [p]
    /\ forall fg vars,
         size vars = size (xi p) ->
         size fg = 1 + size (gl p) ->
         fg_eval p fg vars = Fault (OutOfRange V_coeffs 1).
Proof.
  apply (Solve_defers_short_coeffs example_mps_to_mph bool true Bool.bool_dec
           example_solver example_uninit example_init_state [1%R]
           example_world).
  - unfold size. simpl. lia.
  - unfold size. simpl. lia.
  - intros p. reflexivity.
Defined.

(** ** Where the doubles part from exact arithmetic

    Two runs of the binary64 replay [B64].  They bound what the statements
    above say of the program: a squared term of the cost can underflow to
    zero, and a position built by repeated addition is not the position of
    the closed form. *)

Module Replay.

Import PrimFloat.
#[local] Set Warnings "-inexact-float".
#[local] Open Scope float_scope.



End Replay.
